(** * passgen: the sliding-window rate limiter and the password generator

    A shallow embedding of [src/passgen/app.py]:
    - [check_rate_limit], the per-IP sliding window over [rate_buckets];
    - [generate_password], the constrained random string builder;
    - [api_generate], the request handler that composes the two.

    Conventions of the embedding.
    - A Python function that mutates module state or consumes randomness is a
      computation in the state-and-exception monad [M S], [S] being the part
      of the state it touches.
    - [time.time()] values are rationals ([Q]) with exact arithmetic; the
      clock reading is an argument of the function that reads it.
    - [rate_buckets] is a [gmap string (list Q)]: a deque is the list of its
      elements, oldest first ([popleft] drops the head, [append] adds at the
      end).
    - A [str] is a [string] that holds its UTF-8 encoding.
    - The random source is an arbitrary infinite sequence of naturals from
      which [randbelow n] reads the next one modulo [n]; [random.choice] and
      [random.shuffle] are written over it as CPython writes them. *)

From Stdlib Require Import ZArith QArith Qround Ascii String List Sorted Lia Lqa.
From stdpp Require Import gmap strings list.

Local Open Scope Z_scope.

(** ** State and exceptions *)

Inductive exn : Type :=
| ValueError (msg : string)
| IndexError (msg : string).

Inductive outcome (S A : Type) : Type :=
| Ok (a : A) (s : S)
| Raise (e : exn) (s : S).
Arguments Ok {S A} a s.
Arguments Raise {S A} e s.

Definition M (S A : Type) : Type := S -> outcome S A.

Definition ret {S A} (a : A) : M S A := fun s => Ok a s.

Definition bind {S A B} (m : M S A) (k : A -> M S B) : M S B :=
  fun s => match m s with
           | Ok a s' => k a s'
           | Raise e s' => Raise e s'
           end.

Definition raise {S A} (e : exn) : M S A := fun s => Raise e s.

Declare Scope py_scope.
Delimit Scope py_scope with py.
Notation "x <- m ;; k" := (bind m (fun x => k))
  (at level 100, m at next level, right associativity) : py_scope.

(** What the caller sees of a call: the returned value or the exception. *)
Definition answer {S A} (o : outcome S A) : exn + A :=
  match o with
  | Ok a _ => inr a
  | Raise e _ => inl e
  end.

(** The state the call leaves behind. *)
Definition final {S A} (o : outcome S A) : S :=
  match o with
  | Ok _ s => s
  | Raise _ s => s
  end.

(** [m] returns, from every state, a value that satisfies [P]. *)
Definition returns {S A} (m : M S A) (P : A -> Prop) : Prop :=
  forall s, exists a s', m s = Ok a s' /\ P a.

(** ** Rate limiting *)

Module RateLimiter.

(** The module-level settings of [app.py].  They are gathered in a record so
    that a limiter can be stated for other values than the shipped ones. *)
Record settings : Type := {
  RATE_LIMIT_WINDOW : Q;
  PUBLIC_RATE_LIMIT : Z;
  TRUSTED_RATE_LIMIT : Z
}.

Definition app_settings : settings :=
  {| RATE_LIMIT_WINDOW := 60;
     PUBLIC_RATE_LIMIT := 60;
     TRUSTED_RATE_LIMIT := 300 |}.

(** [a > b] on clock values. *)
Definition Qgt_bool (a b : Q) : bool := negb (Qle_bool a b).

(** Python's [int(x)] on a float: truncation towards zero. *)
Definition py_int (x : Q) : Z := Z.quot (Qnum x) (Z.pos (Qden x)).

(** [while bucket and now - bucket[0] > RATE_LIMIT_WINDOW: bucket.popleft()] *)
Fixpoint prune (window now : Q) (bucket : list Q) : list Q :=
  match bucket with
  | [] => []
  | t :: rest =>
      if Qgt_bool (now - t) window then prune window now rest else bucket
  end.

(** [check_rate_limit(ip, is_trusted)], the clock reading being [now].
    The bucket is the deque stored in the dictionary, so pruning and
    appending are visible in [rate_buckets]; [bucket[0]] on an empty deque
    raises [IndexError]. *)
Definition check_rate_limit (cfg : settings) (ip : string) (is_trusted : bool)
    (now : Q) : M (gmap string (list Q)) (bool * option Z) :=
  fun rate_buckets =>
    let limit :=
      if is_trusted then TRUSTED_RATE_LIMIT cfg else PUBLIC_RATE_LIMIT cfg in
    let rate_buckets :=
      match rate_buckets !! ip with
      | None => <[ip := []]> rate_buckets
      | Some _ => rate_buckets
      end in
    let bucket := default [] (rate_buckets !! ip) in
    let bucket := prune (RATE_LIMIT_WINDOW cfg) now bucket in
    let rate_buckets := <[ip := bucket]> rate_buckets in
    if Z.of_nat (length bucket) >=? limit then
      match bucket with
      | [] => Raise (IndexError "deque index out of range") rate_buckets
      | oldest :: _ =>
          let retry_after :=
            py_int (RATE_LIMIT_WINDOW cfg - (now - oldest))%Q in
          Ok (false, Some retry_after) rate_buckets
      end
    else
      Ok (true, None) (<[ip := bucket ++ [now]]> rate_buckets).

(** A request as the limiter sees it. *)
Record call : Type := {
  call_ip : string;
  call_trusted : bool;
  call_now : Q
}.

(** The limiter serving a sequence of calls, one after the other, on the
    shared [rate_buckets]; each call is reported with its identity. *)
Fixpoint serve (cfg : settings) (calls : list call)
    (rate_buckets : gmap string (list Q))
  : list (string * (exn + (bool * option Z))) :=
  match calls with
  | [] => []
  | c :: rest =>
      let o := check_rate_limit cfg (call_ip c) (call_trusted c) (call_now c)
                 rate_buckets in
      (call_ip c, answer o) :: serve cfg rest (final o)
  end.

(** A limiter with a 60-second window that admits three requests. *)
Definition three_per_minute : settings :=
  {| RATE_LIMIT_WINDOW := 60;
     PUBLIC_RATE_LIMIT := 3;
     TRUSTED_RATE_LIMIT := 300 |}.

Definition at_times (ip : string) (times : list Z) : list call :=
  map (fun t => {| call_ip := ip; call_trusted := false;
                   call_now := inject_Z t |}) times.

(** The limit of a tier. *)
Definition limit_of (cfg : settings) (is_trusted : bool) : Z :=
  if is_trusted then TRUSTED_RATE_LIMIT cfg else PUBLIC_RATE_LIMIT cfg.

(** The calls of one identity, all of one tier, at the given clock
    readings. *)
Definition calls_at (ip : string) (is_trusted : bool) (times : list Q)
  : list call :=
  map (fun t => {| call_ip := ip; call_trusted := is_trusted;
                   call_now := t |}) times.

(** [rate_buckets] after a sequence of calls. *)
Fixpoint serve_final (cfg : settings) (calls : list call)
    (rate_buckets : gmap string (list Q)) : gmap string (list Q) :=
  match calls with
  | [] => rate_buckets
  | c :: rest =>
      serve_final cfg rest
        (final (check_rate_limit cfg (call_ip c) (call_trusted c)
                  (call_now c) rate_buckets))
  end.

(** The clock readings of the calls that were admitted, in order. *)
Fixpoint accepted_times (cfg : settings) (calls : list call)
    (rate_buckets : gmap string (list Q)) : list Q :=
  match calls with
  | [] => []
  | c :: rest =>
      let o := check_rate_limit cfg (call_ip c) (call_trusted c) (call_now c)
                 rate_buckets in
      match answer o with
      | inr (true, _) => call_now c :: accepted_times cfg rest (final o)
      | _ => accepted_times cfg rest (final o)
      end
  end.

(** [t] lies in the closed window that ends at [now]. *)
Definition within (window now t : Q) : bool := Qle_bool (now - t) window.

End RateLimiter.

(** ** Password generation *)

Module PasswordGenerator.

(** The random source: an arbitrary sequence of draws and the position of
    the next one. *)
Record rng : Type := {
  entropy : nat -> nat;
  cursor : nat
}.

(** [random._randbelow(n)], for [n > 0]: some [k] with [0 <= k < n]. *)
Definition randbelow (n : nat) : M rng nat :=
  fun g => Ok (entropy g (cursor g) mod n)%nat
              {| entropy := entropy g; cursor := S (cursor g) |}.

(** [string.ascii_lowercase], [string.ascii_uppercase], [string.digits] and
    [string.punctuation]. *)
Definition ascii_lowercase : string := "abcdefghijklmnopqrstuvwxyz".
Definition ascii_uppercase : string := "ABCDEFGHIJKLMNOPQRSTUVWXYZ".
Definition digits : string := "0123456789".
Definition punctuation : string :=
  String "!" (String (ascii_of_nat 34) "#$%&'()*+,-./:;<=>?@[\]^_`{|}~").

(** [random.choice(seq)] on a string: [seq[randbelow(len(seq))]], and
    [IndexError] on the empty string.  A one-character string is an
    [ascii]. *)
Definition choice (seq : string) : M rng ascii :=
  match String.length seq with
  | O => raise (IndexError "Cannot choose from an empty sequence")
  | n =>
      (i <- randbelow n ;;
       match String.get i seq with
       | Some c => ret c
       | None => raise (IndexError "string index out of range")
       end)%py
  end.

(** [x[i], x[j] = x[j], x[i]]: both reads come first, then [x[i]] and
    [x[j]] are written in this order.  [random.shuffle] only calls it with
    [j <= i < len(x)]; out of the list nothing is written. *)
Definition swap {A} (x : list A) (i j : nat) : list A :=
  match x !! j, x !! i with
  | Some xj, Some xi => <[j := xi]> (<[i := xj]> x)
  | _, _ => x
  end.

(** The loop of [random.shuffle(x)]:
    [for i in reversed(range(1, len(x))): j = randbelow(i + 1); swap],
    entered with [i = len(x) - 1]. *)
Fixpoint shuffle_from {A} (i : nat) (x : list A) : M rng (list A) :=
  match i with
  | O => ret x
  | S i' =>
      (j <- randbelow (S i) ;;
       shuffle_from i' (swap x i j))%py
  end.

Definition shuffle {A} (x : list A) : M rng (list A) :=
  shuffle_from (length x - 1) x.

(** The number of iterations of [for _ in range(start, stop)]. *)
Definition range_len (start stop : Z) : nat := Z.to_nat (stop - start).

(** The three [if] blocks of [generate_password]: the alphabet [chars] and
    the list [required_groups] they leave. *)
Definition select (upper nums special : bool) : string * list string :=
  let chars := ascii_lowercase in
  let required_groups : list string := [] in
  let '(chars, required_groups) :=
    if upper
    then (chars +:+ ascii_uppercase, required_groups ++ [ascii_uppercase])
    else (chars, required_groups) in
  let '(chars, required_groups) :=
    if nums
    then (chars +:+ digits, required_groups ++ [digits])
    else (chars, required_groups) in
  let '(chars, required_groups) :=
    if special
    then (chars +:+ punctuation, required_groups ++ [punctuation])
    else (chars, required_groups) in
  (chars, required_groups).

(** [for group in required_groups:
       password_chars.append(random.choice(group))] *)
Fixpoint pick_required (required_groups : list string)
    (password_chars : list ascii) : M rng (list ascii) :=
  match required_groups with
  | [] => ret password_chars
  | group :: rest =>
      (c <- choice group ;;
       pick_required rest (password_chars ++ [c]))%py
  end.

(** [for _ in range(len(password_chars), length):
       password_chars.append(random.choice(chars))], by the number of
    iterations left. *)
Fixpoint fill (n : nat) (chars : string) (password_chars : list ascii)
  : M rng (list ascii) :=
  match n with
  | O => ret password_chars
  | S n' =>
      (c <- choice chars ;;
       fill n' chars (password_chars ++ [c]))%py
  end.

(** [generate_password(length, upper, nums, special)] *)
Definition generate_password (length : Z) (upper nums special : bool)
  : M rng string :=
  let '(chars, required_groups) := select upper nums special in
  if String.eqb chars EmptyString
  then raise (ValueError "No character sets selected")
  else
    (password_chars <- pick_required required_groups [] ;;
     password_chars <-
       fill (range_len (Z.of_nat (List.length password_chars)) length)
            chars password_chars ;;
     password_chars <- shuffle password_chars ;;
     ret (string_of_list_ascii password_chars))%py.

(** [any(c in group for c in s)] *)
Definition contains_from (group s : string) : bool :=
  existsb (fun c => existsb (Ascii.eqb c) (list_ascii_of_string group))
          (list_ascii_of_string s).

(** The groups among upper, digits and special that are switched on. *)
Definition enabled_groups (upper nums special : bool) : Z :=
  Z.b2z upper + Z.b2z nums + Z.b2z special.

(** The active classes of the specification: lowercase and the enabled
    groups. *)
Definition active_classes (upper nums special : bool) : Z :=
  1 + enabled_groups upper nums special.

(** A source whose every draw is [k]. *)
Definition constant_rng (k : nat) : rng :=
  {| entropy := fun _ => k; cursor := O |}.

End PasswordGenerator.

(** ** The request handler *)

Module Handler.

Import RateLimiter PasswordGenerator.

Definition API_KEY : string := "CHANGE_ME_API_KEY".

(** The counters of [stats]. *)
Record stats : Type := {
  total_requests : Z;
  total_passwords_generated : Z;
  last_request_ts : option Q
}.

(** The module state the handler works on. *)
Record world : Type := {
  rate_buckets : gmap string (list Q);
  app_stats : stats;
  random : rng
}.

(** A computation on [rate_buckets], run on the module state. *)
Definition on_buckets {A} (m : M (gmap string (list Q)) A) : M world A :=
  fun w =>
    let put rb :=
      {| rate_buckets := rb; app_stats := app_stats w; random := random w |} in
    match m (rate_buckets w) with
    | Ok a rb => Ok a (put rb)
    | Raise e rb => Raise e (put rb)
    end.

(** A computation on the random source, run on the module state. *)
Definition on_random {A} (m : M rng A) : M world A :=
  fun w =>
    let put g :=
      {| rate_buckets := rate_buckets w; app_stats := app_stats w;
         random := g |} in
    match m (random w) with
    | Ok a g => Ok a (put g)
    | Raise e g => Raise e (put g)
    end.

(** What the handler reads of a request: [request.remote_addr] and the
    query parameters [request.args], in the order they were sent. *)
Record request : Type := {
  remote_addr : option string;
  args : list (string * string)
}.

(** [request.args.get(key)]: the first value sent under [key]. *)
Fixpoint args_get (key : string) (a : list (string * string))
  : option string :=
  match a with
  | [] => None
  | (k, v) :: rest => if String.eqb k key then Some v else args_get key rest
  end.

(** The responses of [api_generate]: status 429, status 400, status 200. *)
Inductive response : Type :=
| RateLimitExceeded (retry_after : option Z)
| BadRequest (error : string)
| Passwords (passwords : list string).

(** *** [int(s)]

    A [str] is held as its UTF-8 encoding.  [int] is read off CPython 3.11
    ([PyLong_FromUnicodeObject], [PyLong_FromString]) with the character
    tables of Unicode 14.0: white space around, an optional sign, then
    decimal digits of any script, where single underscores may separate
    digits, and no more than [int_max_str_digits] digits. *)

(** [sys.get_int_max_str_digits()], which the application leaves at its
    default. *)
Definition int_max_str_digits : Z := 4300.

Definition is_continuation (b : N) : bool := ((128 <=? b) && (b <? 192))%N.

(** The code points of a text held in UTF-8; [None] when the bytes are not
    the encoding of a text. *)
Fixpoint code_points (s : list N) : option (list N) :=
  match s with
  | [] => Some []
  | b0 :: rest =>
      if (b0 <? 128)%N then cons b0 <$> code_points rest
      else if ((192 <=? b0) && (b0 <? 224))%N then
        match rest with
        | b1 :: rest =>
            let c := ((b0 - 192) * 64 + (b1 - 128))%N in
            if is_continuation b1 && (128 <=? c)%N
            then cons c <$> code_points rest
            else None
        | _ => None
        end
      else if ((224 <=? b0) && (b0 <? 240))%N then
        match rest with
        | b1 :: b2 :: rest =>
            let c := ((b0 - 224) * 4096 + (b1 - 128) * 64 + (b2 - 128))%N in
            if is_continuation b1 && is_continuation b2 && (2048 <=? c)%N
               && negb ((55296 <=? c) && (c <? 57344))%N
            then cons c <$> code_points rest
            else None
        | _ => None
        end
      else if ((240 <=? b0) && (b0 <? 248))%N then
        match rest with
        | b1 :: b2 :: b3 :: rest =>
            let c := ((b0 - 240) * 262144 + (b1 - 128) * 4096
                      + (b2 - 128) * 64 + (b3 - 128))%N in
            if is_continuation b1 && is_continuation b2 && is_continuation b3
               && (65536 <=? c)%N && (c <? 1114112)%N
            then cons c <$> code_points rest
            else None
        | _ => None
        end
      else None
  end.

(** [Py_UNICODE_ISSPACE] on the code points from 127 on. *)
Definition unicode_space (c : N) : bool :=
  ((c =? 133) || (c =? 160) || (c =? 5760)
   || ((8192 <=? c) && (c <=? 8202))
   || (c =? 8232) || (c =? 8233) || (c =? 8239) || (c =? 8287)
   || (c =? 12288))%N.

(** The digit zero of every script that has decimal digits; the digits one
    to nine follow it. *)
Definition decimal_zeros : list N :=
  [48; 1632; 1776; 1984; 2406; 2534; 2662; 2790; 2918; 3046; 3174; 3302;
   3430; 3558; 3664; 3792; 3872; 4160; 4240; 6112; 6160; 6470; 6608; 6784;
   6800; 6992; 7088; 7232; 7248; 42528; 43216; 43264; 43472; 43504; 43600;
   44016; 65296; 66720; 68912; 69734; 69872; 69942; 70096; 70384; 70736;
   70864; 71248; 71360; 71472; 71904; 72016; 72784; 73040; 73120; 92768;
   92864; 93008; 120782; 120792; 120802; 120812; 120822; 123200; 123632;
   125264; 130032]%N.

(** [Py_UNICODE_TODECIMAL] *)
Definition to_decimal (c : N) : option N :=
  (fun zero => (c - zero)%N) <$>
    List.find (fun zero => ((zero <=? c) && (c <? zero + 10))%N)
              decimal_zeros.

(** One character of [_PyUnicode_TransformDecimalAndSpaceToASCII]; [None]
    stands for the question mark that ends the conversion, which [int]
    then refuses. *)
Definition to_ascii (c : N) : option N :=
  if (c <? 127)%N then Some c
  else if unicode_space c then Some 32%N
  else (fun d => (48 + d)%N) <$> to_decimal c.

(** [_PyUnicode_TransformDecimalAndSpaceToASCII]: an ASCII text is taken
    as it is. *)
Definition ascii_text (cps : list N) : option (list ascii) :=
  map ascii_of_N <$>
    (if forallb (fun c => (c <? 128)%N) cps then Some cps
     else mapM to_ascii cps).

(** [Py_ISSPACE] *)
Definition is_space (c : ascii) : bool :=
  let n := nat_of_ascii c in
  ((n =? 32) || ((9 <=? n) && (n <=? 13)))%nat.

Definition is_digit (c : ascii) : bool :=
  let n := nat_of_ascii c in
  ((48 <=? n) && (n <=? 57))%nat.

Definition digit_value (c : ascii) : Z := Z.of_nat (nat_of_ascii c - 48).

Fixpoint lstrip (s : list ascii) : list ascii :=
  match s with
  | c :: rest => if is_space c then lstrip rest else s
  | [] => []
  end.

Definition strip (s : list ascii) : list ascii :=
  rev (lstrip (rev (lstrip s))).

(** The digits of a literal; [after_digit] tells whether the character
    just read was a digit. *)
Fixpoint digits_value (acc : Z) (after_digit : bool) (s : list ascii)
  : option Z :=
  match s with
  | [] => if after_digit then Some acc else None
  | c :: rest =>
      if is_digit c then digits_value (10 * acc + digit_value c) true rest
      else if Ascii.eqb c "_" && after_digit then digits_value acc false rest
      else None
  end.

(** The literal after its sign: refused when it has more than
    [int_max_str_digits] digits, underscores not counted. *)
Definition digits_within_limit (s : list ascii) : option Z :=
  if int_max_str_digits <? Z.of_nat (length (List.filter is_digit s))
  then None
  else digits_value 0 false s.

Definition int_of_str (s : string) : option Z :=
  match code_points (map N_of_ascii (list_ascii_of_string s)) with
  | None => None
  | Some cps =>
      match ascii_text cps with
      | None => None
      | Some text =>
          match strip text with
          | "-"%char :: rest => Z.opp <$> digits_within_limit rest
          | "+"%char :: rest => digits_within_limit rest
          | rest => digits_within_limit rest
          end
      end
  end.

(** [str.lower()] on the ASCII letters.  No other character lowers to a
    letter of [true], so the comparison in [flag] is that of the source on
    every text. *)
Definition lower_char (c : ascii) : ascii :=
  let n := nat_of_ascii c in
  if ((65 <=? n) && (n <=? 90))%nat then ascii_of_nat (n + 32) else c.

Definition lower (s : string) : string :=
  string_of_list_ascii (map lower_char (list_ascii_of_string s)).

(** [request.args.get(key, "true").lower() == "true"] *)
Definition flag (key : string) (a : list (string * string)) : bool :=
  String.eqb (lower (default "true" (args_get key a))) "true".

(** [[m for _ in range(n)]] *)
Fixpoint repeat_call {S A} (n : nat) (m : M S A) : M S (list A) :=
  match n with
  | O => ret []
  | S n' =>
      (x <- m ;;
       xs <- repeat_call n' m ;;
       ret (x :: xs))%py
  end.

(** [try: m except ValueError as e: handler(str(e))] *)
Definition except_ValueError {S A} (m : M S A) (handler : string -> M S A)
  : M S A :=
  fun s =>
    match m s with
    | Raise (ValueError msg) s' => handler msg s'
    | o => o
    end.

(** The two adjustments of [count] in [api_generate]. *)
Definition clamp_count (count : Z) : Z :=
  let count := if count <? 1 then 1 else count in
  let count := if count >? 100 then 100 else count in
  count.

(** The update of [stats] after a successful generation, [ts] being the
    clock reading at that point. *)
Definition update_stats (generated : nat) (ts : Q) : M world unit :=
  fun w =>
    let st := app_stats w in
    Ok tt {| rate_buckets := rate_buckets w;
             app_stats :=
               {| total_requests := total_requests st + 1;
                  total_passwords_generated :=
                    total_passwords_generated st + Z.of_nat generated;
                  last_request_ts := Some ts |};
             random := random w |}.

(** [request.remote_addr or "unknown"].  The empty string is falsy too. *)
Definition client_ip (req : request) : string :=
  match remote_addr req with
  | Some addr => if String.eqb addr EmptyString then "unknown" else addr
  | None => "unknown"
  end.

(** [request.args.get("api_key") == API_KEY] *)
Definition is_trusted (req : request) : bool :=
  match args_get "api_key" (args req) with
  | Some provided_key => String.eqb provided_key API_KEY
  | None => false
  end.

(** [int(request.args.get(key, fallback))]; [None] stands for the
    [ValueError] of [int]. *)
Definition int_arg (key : string) (fallback : Z) (a : list (string * string))
  : option Z :=
  match args_get key a with
  | Some s => int_of_str s
  | None => Some fallback
  end.

(** [api_generate()], for the request [req]; [now] is the clock reading
    taken by the rate limiter and [ts] the one taken for the statistics.
    The log line is not modelled. *)
Definition api_generate (cfg : settings) (req : request) (now ts : Q)
  : M world response :=
  (decision <-
     on_buckets (check_rate_limit cfg (client_ip req) (is_trusted req) now) ;;
   let '(allowed, retry_after) := decision in
   if negb allowed then ret (RateLimitExceeded retry_after)
   else
     match int_arg "length" 16 (args req) with
     | None => ret (BadRequest "Invalid length")
     | Some length =>
         if negb ((8 <=? length) && (length <=? 128))
         then ret (BadRequest "Length must be between 8 and 128")
         else
           match int_arg "count" 1 (args req) with
           | None => ret (BadRequest "Invalid count")
           | Some count =>
               let count := clamp_count count in
               let upper := flag "upper" (args req) in
               let nums := flag "numbers" (args req) in
               let special := flag "special" (args req) in
               generated <-
                 except_ValueError
                   (passwords <-
                      on_random
                        (repeat_call (Z.to_nat count)
                           (generate_password length upper nums special)) ;;
                    ret (inr passwords))
                   (fun msg => ret (inl msg)) ;;
               match generated with
               | inl msg => ret (BadRequest msg)
               | inr passwords =>
                   _ <- update_stats (List.length passwords) ts ;;
                   ret (Passwords passwords)
               end
           end
     end)%py.

(** [api_stats()]: the counters, as they are. *)
Definition api_stats : M world stats := fun w => Ok (app_stats w) w.

(** The state of a freshly started server drawing from [g]. *)
Definition fresh (g : rng) : world :=
  {| rate_buckets := ∅;
     app_stats := {| total_requests := 0; total_passwords_generated := 0;
                     last_request_ts := None |};
     random := g |}.

(** A request from [ip] with the given query parameters. *)
Definition request_from (ip : string) (a : list (string * string)) : request :=
  {| remote_addr := Some ip; args := a |}.


End Handler.

Import RateLimiter PasswordGenerator Handler.

(** * Properties of the rate limiter *)

Section RateLimiterFacts.

Implicit Types (cfg : settings) (ip : string) (tr : bool) (now : Q).
Implicit Types (rb : gmap string (list Q)) (bucket : list Q).

Lemma Qgt_bool_true a b : Qgt_bool a b = true <-> (b < a)%Q.
Proof.
  unfold Qgt_bool. rewrite negb_true_iff, <- not_true_iff_false, Qle_bool_iff.
  split; [apply Qnot_le_lt | apply Qlt_not_le].
Qed.

Lemma Qgt_bool_false a b : Qgt_bool a b = false <-> (a <= b)%Q.
Proof.
  unfold Qgt_bool. rewrite negb_false_iff. apply Qle_bool_iff.
Qed.

(** On a non-negative value [int] is the floor. *)
Lemma py_int_floor (x : Q) : (0 <= x)%Q -> py_int x = Qfloor x /\ 0 <= py_int x.
Proof.
  destruct x as [n d]. unfold Qle, py_int, Qfloor. simpl. intros Hn.
  rewrite Z.mul_1_r in Hn.
  rewrite Z.quot_div_nonneg by lia.
  split; [reflexivity | apply Z.div_pos; lia].
Qed.


(** Pruning pops a prefix whose entries are all strictly older than the
    window. *)
Lemma prune_split window now bucket :
  exists popped,
    bucket = popped ++ prune window now bucket /\
    Forall (fun t => (window < now - t)%Q) popped.
Proof.
  induction bucket as [|t rest IH]; simpl.
  - exists []. split; [reflexivity | constructor].
  - destruct (Qgt_bool (now - t) window) eqn:Hgt.
    + destruct IH as (popped & Heq & Hold).
      exists (t :: popped). split.
      * simpl. congruence.
      * constructor; [by apply Qgt_bool_true | exact Hold].
    + exists []. split; [reflexivity | constructor].
Qed.

(** The entry left at the front is not older than the window. *)
Lemma prune_front window now bucket oldest rest :
  prune window now bucket = oldest :: rest -> (now - oldest <= window)%Q.
Proof.
  induction bucket as [|t l IH]; simpl; [discriminate|].
  destruct (Qgt_bool (now - t) window) eqn:Hgt; [exact IH|].
  intros [= -> _]. by apply Qgt_bool_false.
Qed.

Lemma prune_length window now bucket :
  (length (prune window now bucket) <= length bucket)%nat.
Proof.
  destruct (prune_split window now bucket) as (popped & Heq & _).
  rewrite Heq at 2. rewrite length_app. lia.
Qed.

(** A later pruning subsumes an earlier one. *)
Lemma prune_later window now now' bucket :
  (now <= now')%Q ->
  prune window now' (prune window now bucket) = prune window now' bucket.
Proof.
  intros Hle. induction bucket as [|t rest IH]; simpl; [reflexivity|].
  destruct (Qgt_bool (now - t) window) eqn:Hgt.
  - apply Qgt_bool_true in Hgt.
    assert (Qgt_bool (now' - t) window = true) as ->; [|exact IH].
    apply Qgt_bool_true.
    apply Qlt_le_trans with (now - t)%Q; [exact Hgt|].
    apply Qplus_le_l. exact Hle.
  - reflexivity.
Qed.

(** [check_rate_limit] in terms of the pruned bucket of its identity. *)
Lemma check_rate_limit_unfold cfg ip tr now rb :
  let limit := if tr then TRUSTED_RATE_LIMIT cfg else PUBLIC_RATE_LIMIT cfg in
  let bucket :=
    prune (RATE_LIMIT_WINDOW cfg) now (default [] (rb !! ip)) in
  check_rate_limit cfg ip tr now rb =
    if Z.of_nat (length bucket) >=? limit then
      match bucket with
      | [] => Raise (IndexError "deque index out of range")
                    (<[ip := bucket]> rb)
      | oldest :: _ =>
          Ok (false,
              Some (py_int (RATE_LIMIT_WINDOW cfg - (now - oldest))%Q))
             (<[ip := bucket]> rb)
      end
    else Ok (true, None) (<[ip := bucket ++ [now]]> rb).
Proof.
  intros limit bucket. unfold check_rate_limit.
  fold limit. destruct (rb !! ip) as [b|] eqn:Hb.
  - rewrite Hb. simpl. fold bucket.
    by rewrite insert_insert_eq.
  - rewrite lookup_insert_eq. simpl. fold bucket.
    by rewrite !insert_insert_eq.
Qed.

(** With a positive limit the call returns: it never raises. *)
Lemma check_rate_limit_returns cfg ip tr now rb :
  0 < (if tr then TRUSTED_RATE_LIMIT cfg else PUBLIC_RATE_LIMIT cfg) ->
  exists decision rb',
    check_rate_limit cfg ip tr now rb = Ok decision rb'.
Proof.
  intros Hlimit. rewrite check_rate_limit_unfold. cbv zeta.
  destruct (prune _ _ _) as [|oldest rest].
  - change (length (@nil Q)) with 0%nat.
    destruct (_ >=? _) eqn:Hge; [|by eexists _, _].
    apply Z.geb_le in Hge. simpl in Hge. lia.
  - destruct (_ >=? _); by eexists _, _.
Qed.

(** A call leaves the buckets of the other identities as they were. *)
Lemma check_rate_limit_frame cfg ip ip' tr now rb :
  ip <> ip' ->
  final (check_rate_limit cfg ip tr now rb) !! ip' = rb !! ip'.
Proof.
  intros Hne. rewrite check_rate_limit_unfold. simpl.
  destruct (_ >=? _).
  - destruct (prune _ _ _); simpl; by rewrite ?lookup_insert_ne.
  - simpl. rewrite !lookup_insert_ne; done.
Qed.

(** The answer of a call depends on the bucket of its identity only. *)
Lemma check_rate_limit_local cfg ip tr now rb1 rb2 :
  rb1 !! ip = rb2 !! ip ->
  answer (check_rate_limit cfg ip tr now rb1) =
    answer (check_rate_limit cfg ip tr now rb2) /\
  final (check_rate_limit cfg ip tr now rb1) !! ip =
    final (check_rate_limit cfg ip tr now rb2) !! ip.
Proof.
  intros Heq. rewrite !check_rate_limit_unfold. simpl. rewrite Heq.
  destruct (_ >=? _).
  - destruct (prune _ _ _); simpl; by rewrite !lookup_insert_eq.
  - simpl. by rewrite !lookup_insert_eq.
Qed.

(** The calls of one identity are answered from its own bucket: two
    servers whose buckets agree on [ip] answer them alike, whatever calls
    of other identities the first one serves in between. *)
Lemma serve_filter cfg ip calls rb1 rb2 :
  rb1 !! ip = rb2 !! ip ->
  filter (fun p => p.1 = ip) (serve cfg calls rb1) =
    serve cfg (filter (fun c => call_ip c = ip) calls) rb2.
Proof.
  revert rb1 rb2. induction calls as [|c rest IH]; intros rb1 rb2 Heq.
  - reflexivity.
  - simpl. destruct (decide (call_ip c = ip)) as [Hc|Hc].
    + rewrite filter_cons_True by (simpl; exact Hc).
      rewrite filter_cons_True by exact Hc. simpl.
      rewrite <- Hc in Heq.
      destruct (check_rate_limit_local cfg (call_ip c) (call_trusted c)
                  (call_now c) rb1 rb2 Heq) as [Hans Hfin].
      rewrite Hans. f_equal. apply IH. by rewrite <- Hc.
    + rewrite filter_cons_False by (simpl; exact Hc).
      rewrite filter_cons_False by exact Hc.
      apply IH. rewrite check_rate_limit_frame by exact Hc. exact Heq.
Qed.

End RateLimiterFacts.

(** ** The claims on the rate limiter *)

Section RateLimiterClaims.

Implicit Types (cfg : settings) (ip : string) (tr : bool) (now : Q).
Implicit Types (rb : gmap string (list Q)) (bucket : list Q).

(** C1, as amended.  With a 60-second window and a limit of three, the calls
    of identity A at 0, 1 and 2 are admitted, the call at 3 is rejected with
    [retry_after = 57] and the call at 61 is admitted.  In general a rejected
    call returns the floor of [window - (now - oldest)], [oldest] being the
    front of the pruned bucket, and that number is never negative. *)
Theorem check_rate_limit_window_correctness :
  serve three_per_minute (at_times "A" [0; 1; 2; 3; 61]) ∅ =
    [("A", inr (true, None)); ("A", inr (true, None));
     ("A", inr (true, None)); ("A", inr (false, Some 57));
     ("A", inr (true, None))] /\
  forall cfg ip tr now rb retry_after rb',
    check_rate_limit cfg ip tr now rb = Ok (false, retry_after) rb' ->
    exists oldest rest,
      prune (RATE_LIMIT_WINDOW cfg) now (default [] (rb !! ip))
        = oldest :: rest /\
      retry_after =
        Some (Qfloor (RATE_LIMIT_WINDOW cfg - (now - oldest))) /\
      0 <= Qfloor (RATE_LIMIT_WINDOW cfg - (now - oldest)).
Proof.
  split; [vm_compute; reflexivity|].
  intros cfg ip tr now rb retry_after rb'.
  rewrite check_rate_limit_unfold. cbv zeta.
  destruct (_ >=? _); [|discriminate].
  destruct (prune _ _ _) as [|oldest rest] eqn:Hp; [discriminate|].
  intros [= <- _]. exists oldest, rest.
  apply prune_front in Hp.
  assert (0 <= RATE_LIMIT_WINDOW cfg - (now - oldest))%Q as Hpos.
  { apply (proj1 (Qle_minus_iff (now - oldest) (RATE_LIMIT_WINDOW cfg))).
    exact Hp. }
  destruct (py_int_floor _ Hpos) as [Hfl Hnn].
  rewrite <- Hfl. auto.
Qed.

Lemma check_rate_limit_window_correctness_witness :
  exists oldest rest,
    prune 60 3 (default [] (({["A" := [0; 1; 2]%Q]} : gmap string (list Q))
                              !! "A"))
      = oldest :: rest /\
    Some 57 = Some (Qfloor (60 - (3 - oldest))) /\
    0 <= Qfloor (60 - (3 - oldest)).
Proof.
  apply (proj2 check_rate_limit_window_correctness
           three_per_minute "A" false 3%Q {["A" := [0; 1; 2]%Q]}
           (Some 57) {["A" := [0; 1; 2]%Q]}).
  vm_compute. reflexivity.
Defined.

(** C1, as stated, fails: the call at 3 is not answered with 58, and with a
    clock reading of 5/2 the returned 57 is not the ceiling of
    [60 - (5/2 - 0)]. *)
Lemma check_rate_limit_retry_after_not_58 :
  serve three_per_minute (at_times "A" [0; 1; 2; 3]) ∅ !! 3%nat
    <> Some ("A", inr (false, Some 58)) /\
  answer (check_rate_limit three_per_minute "A" false (5 # 2)
            {["A" := [0; 1; 2]%Q]})
    <> inr (false, Some (Qceiling (60 - ((5 # 2) - 0)))).
Proof.
  split; vm_compute; discriminate.
Qed.




(** C7.  A call of one identity leaves the bucket of every other identity
    untouched, its answer depends on its own bucket only, and therefore the
    answers an identity gets are those it would get if the calls of all the
    other identities were never made. *)
Theorem check_rate_limit_isolation :
  (forall cfg ip ip' tr now rb,
     ip <> ip' ->
     final (check_rate_limit cfg ip tr now rb) !! ip' = rb !! ip') /\
  (forall cfg ip tr now rb1 rb2,
     rb1 !! ip = rb2 !! ip ->
     answer (check_rate_limit cfg ip tr now rb1) =
       answer (check_rate_limit cfg ip tr now rb2)) /\
  (forall cfg ip calls rb,
     filter (fun p => p.1 = ip) (serve cfg calls rb) =
       serve cfg (filter (fun c => call_ip c = ip) calls) rb).
Proof.
  split; [|split].
  - intros. by apply check_rate_limit_frame.
  - intros cfg ip tr now rb1 rb2 Heq.
    by destruct (check_rate_limit_local cfg ip tr now rb1 rb2 Heq).
  - intros. by apply serve_filter.
Qed.

Lemma check_rate_limit_isolation_witness :
  final (check_rate_limit three_per_minute "A" false 3
           {["A" := [0; 1; 2]%Q; "B" := [1]%Q]}) !! "B"
    = ({["A" := [0; 1; 2]%Q; "B" := [1]%Q]} : gmap string (list Q)) !! "B".
Proof.
  apply (proj1 check_rate_limit_isolation three_per_minute "A" "B" false 3%Q).
  discriminate.
Defined.

(** C10.  A rejected call leaves in the bucket of its identity a suffix of
    what was there: nothing is appended and the bucket does not grow.  Any
    later call is answered, and leaves the state, exactly as if the rejected
    call had not been made. *)
Theorem check_rate_limit_rejection_keeps_budget :
  forall cfg ip tr now rb retry_after rb',
    check_rate_limit cfg ip tr now rb = Ok (false, retry_after) rb' ->
    exists popped kept,
      default [] (rb !! ip) = popped ++ kept /\
      rb' !! ip = Some kept /\
      (length kept <= length (default [] (rb !! ip)))%nat /\
      forall tr' now',
        (now <= now')%Q ->
        check_rate_limit cfg ip tr' now' rb' =
          check_rate_limit cfg ip tr' now' rb.
Proof.
  intros cfg ip tr now rb retry_after rb'.
  rewrite check_rate_limit_unfold. cbv zeta.
  destruct (_ >=? _); [|discriminate].
  destruct (prune _ _ _) as [|oldest rest] eqn:Hp; [discriminate|].
  intros [= _ <-].
  destruct (prune_split (RATE_LIMIT_WINDOW cfg) now (default [] (rb !! ip)))
    as (popped & Hsplit & _).
  exists popped, (oldest :: rest). rewrite Hp in Hsplit.
  split; [exact Hsplit|]. split; [by rewrite lookup_insert_eq|].
  split.
  { rewrite <- Hp. apply prune_length. }
  intros tr' now' Hle. rewrite !check_rate_limit_unfold. cbv zeta.
  rewrite lookup_insert_eq. simpl default.
  rewrite <- Hp, prune_later by exact Hle.
  by rewrite !insert_insert_eq.
Qed.

Lemma check_rate_limit_rejection_keeps_budget_witness :
  exists popped kept,
    default [] (({["A" := [0; 1; 2; 3]%Q]} : gmap string (list Q)) !! "A")
      = popped ++ kept /\
    ({["A" := [1; 2; 3]%Q]} : gmap string (list Q)) !! "A" = Some kept /\
    (length kept <=
       length (default [] (({["A" := [0; 1; 2; 3]%Q]}
                              : gmap string (list Q)) !! "A")))%nat /\
    forall tr' now',
      (61 <= now')%Q ->
      check_rate_limit three_per_minute "A" tr' now' {["A" := [1; 2; 3]%Q]} =
        check_rate_limit three_per_minute "A" tr' now'
          {["A" := [0; 1; 2; 3]%Q]}.
Proof.
  apply (check_rate_limit_rejection_keeps_budget
           three_per_minute "A" false 61%Q {["A" := [0; 1; 2; 3]%Q]}
           (Some 0)).
  vm_compute. reflexivity.
Defined.

End RateLimiterClaims.

(** * Properties of the password generator *)

Section MonadFacts.

Context {S : Type}.

Lemma returns_ret {A} (a : A) (P : A -> Prop) : P a -> returns (S := S) (ret a) P.
Proof. intros Ha s. exists a, s. split; [reflexivity | exact Ha]. Qed.

Lemma returns_bind {A B} (m : M S A) (k : A -> M S B)
    (P : A -> Prop) (Q : B -> Prop) :
  returns m P ->
  (forall a, P a -> returns (k a) Q) ->
  returns (x <- m ;; k x)%py Q.
Proof.
  intros Hm Hk s. unfold bind.
  destruct (Hm s) as (a & s' & -> & Ha).
  exact (Hk a Ha s').
Qed.

Lemma returns_weaken {A} (m : M S A) (P Q : A -> Prop) :
  returns m P -> (forall a, P a -> Q a) -> returns m Q.
Proof.
  intros Hm HPQ s. destruct (Hm s) as (a & s' & Heq & Ha).
  exists a, s'. auto.
Qed.

End MonadFacts.

Section PasswordGeneratorFacts.

Implicit Types (seq chars group : string) (c : ascii).
Implicit Types (password_chars picks extra : list ascii).

Lemma randbelow_returns n :
  (0 < n)%nat -> returns (randbelow n) (fun k => (k < n)%nat).
Proof.
  intros Hn g. eexists _, _. split; [reflexivity|].
  apply Nat.mod_upper_bound. lia.
Qed.

Lemma get_in_range seq i :
  (i < String.length seq)%nat ->
  exists c, String.get i seq = Some c /\ In c (list_ascii_of_string seq).
Proof.
  revert i. induction seq as [|a seq IH]; intros i Hi; simpl in *; [lia|].
  destruct i as [|i].
  - exists a. auto.
  - destruct (IH i) as (c & Hget & Hin); [lia|].
    exists c. auto.
Qed.

Lemma choice_returns seq :
  seq <> EmptyString -> returns (choice seq) (fun c => In c (list_ascii_of_string seq)).
Proof.
  intros Hne. unfold choice.
  destruct (String.length seq) as [|n] eqn:Hlen.
  { destruct seq; [congruence | discriminate]. }
  eapply returns_bind; [apply randbelow_returns; lia|].
  intros i Hi. cbv beta in Hi |- *.
  destruct (get_in_range seq i) as (c & -> & Hin); [lia|].
  by apply returns_ret.
Qed.

(** One character is taken from each required group, in order. *)
Lemma pick_required_returns (required_groups : list string) password_chars :
  Forall (fun group => group <> EmptyString) required_groups ->
  returns (pick_required required_groups password_chars)
    (fun l => exists picks,
       l = password_chars ++ picks /\
       Forall2 (fun c group => In c (list_ascii_of_string group))
               picks required_groups).
Proof.
  intros Hne. revert password_chars.
  induction Hne as [|group rest Hgroup _ IH]; intros password_chars; simpl.
  - apply returns_ret. exists []. split; [by rewrite app_nil_r | constructor].
  - eapply returns_bind; [by apply choice_returns|].
    intros c Hc. cbv beta.
    eapply returns_weaken; [apply IH|].
    intros l (picks & -> & Hpicks). exists (c :: picks).
    split; [by rewrite <- app_assoc | by constructor].
Qed.

(** The filling loop appends [n] characters of the alphabet. *)
Lemma fill_returns n chars password_chars :
  chars <> EmptyString ->
  returns (fill n chars password_chars)
    (fun l => exists extra,
       l = password_chars ++ extra /\
       length extra = n /\
       Forall (fun c => In c (list_ascii_of_string chars)) extra).
Proof.
  intros Hne. revert password_chars.
  induction n as [|n IH]; intros password_chars; simpl.
  - apply returns_ret. exists []. by rewrite app_nil_r.
  - eapply returns_bind; [by apply choice_returns|].
    intros c Hc. cbv beta.
    eapply returns_weaken; [apply IH|].
    intros l (extra & -> & Hlen & Hextra). exists (c :: extra).
    split; [by rewrite <- app_assoc|].
    split; [simpl; lia | by constructor].
Qed.

Lemma swap_Permutation {A} (x : list A) i j : swap x i j ≡ₚ x.
Proof.
  unfold swap.
  destruct (x !! j) as [xj|] eqn:Hj; [|reflexivity].
  destruct (x !! i) as [xi|] eqn:Hi; [|reflexivity].
  by apply Permutation_insert_swap.
Qed.

(** Shuffling returns a rearrangement of its argument. *)
Lemma shuffle_from_returns {A} i (x : list A) :
  returns (shuffle_from i x) (fun x' => x' ≡ₚ x).
Proof.
  revert x. induction i as [|i IH]; intros x; simpl.
  - by apply returns_ret.
  - eapply returns_bind; [apply randbelow_returns; lia|].
    intros j _. cbv beta.
    eapply returns_weaken; [apply IH|].
    intros x' Hx'. cbv beta in Hx'. rewrite Hx'. apply swap_Permutation.
Qed.

Lemma shuffle_returns {A} (x : list A) :
  returns (shuffle x) (fun x' => x' ≡ₚ x).
Proof. apply shuffle_from_returns. Qed.

(** The alphabet starts with the lowercase letters, whatever the flags. *)
Lemma select_chars upper nums special :
  exists more, (select upper nums special).1 = ascii_lowercase +:+ more.
Proof.
  destruct upper, nums, special; eexists; vm_compute; reflexivity.
Qed.

Lemma select_groups upper nums special :
  (select upper nums special).2 =
    (if upper then [ascii_uppercase] else []) ++
    (if nums then [digits] else []) ++
    (if special then [punctuation] else []).
Proof. by destruct upper, nums, special. Qed.

Lemma select_groups_nonempty upper nums special :
  Forall (fun group => group <> EmptyString) (select upper nums special).2.
Proof.
  destruct upper, nums, special; repeat constructor; discriminate.
Qed.

Lemma select_groups_length upper nums special :
  Z.of_nat (length (select upper nums special).2) =
    enabled_groups upper nums special.
Proof. by destruct upper, nums, special. Qed.

Lemma length_string_of_list_ascii (l : list ascii) :
  String.length (string_of_list_ascii l) = length l.
Proof. induction l; simpl; congruence. Qed.

(** What [generate_password] returns: a rearrangement of one character per
    required group followed by the characters of the filling loop. *)
Lemma generate_password_returns (len : Z) upper nums special :
  returns (generate_password len upper nums special)
    (fun pw => exists picks extra,
       list_ascii_of_string pw ≡ₚ picks ++ extra /\
       Forall2 (fun c group => In c (list_ascii_of_string group))
               picks (select upper nums special).2 /\
       length extra = range_len (Z.of_nat (length picks)) len /\
       Forall (fun c => In c (list_ascii_of_string (select upper nums special).1))
              extra).
Proof.
  unfold generate_password.
  destruct (select_chars upper nums special) as (more & Hchars).
  pose proof (select_groups_nonempty upper nums special) as Hgroups.
  destruct (select upper nums special) as [chars required_groups].
  simpl in Hchars, Hgroups |- *.
  assert (chars <> EmptyString) as Hne by (by rewrite Hchars).
  destruct (String.eqb_spec chars EmptyString); [done|].
  eapply returns_bind; [by apply pick_required_returns|].
  intros l (picks & -> & Hpicks). cbv beta. rewrite app_nil_l.
  eapply returns_bind; [by apply fill_returns|].
  intros l (extra & -> & Hlen & Hextra). cbv beta.
  eapply returns_bind; [apply shuffle_returns|].
  intros l Hl. cbv beta in Hl |- *.
  apply returns_ret. exists picks, extra.
  by rewrite list_ascii_of_string_of_list_ascii.
Qed.

(** A character of [s] that belongs to [group] is found by
    [contains_from]. *)
Lemma contains_from_intro group s c :
  In c (list_ascii_of_string s) -> In c (list_ascii_of_string group) ->
  contains_from group s = true.
Proof.
  intros Hs Hgroup. unfold contains_from.
  apply existsb_exists. exists c. split; [exact Hs|].
  apply existsb_exists. exists c. split; [exact Hgroup|].
  apply Ascii.eqb_refl.
Qed.

End PasswordGeneratorFacts.

Section PasswordGeneratorLemmas.

Implicit Types (len : Z) (upper nums special : bool) (g : rng).

Lemma length_list_ascii_of_string (s : string) :
  length (list_ascii_of_string s) = String.length s.
Proof. induction s; simpl; congruence. Qed.

Lemma picks_meet (picks : list ascii) (groups : list string)
    (group : string) :
  Forall2 (fun c group => In c (list_ascii_of_string group)) picks groups ->
  In group groups ->
  exists c, In c picks /\ In c (list_ascii_of_string group).
Proof.
  induction 1 as [|c grp picks groups Hc _ IH]; intros Hgroup.
  - destruct Hgroup.
  - destruct Hgroup as [->|Hgroup].
    + exists c. split; [by left | exact Hc].
    + destruct (IH Hgroup) as (c' & Hin & Hc'). exists c'.
      split; [by right | exact Hc'].
Qed.

(** A password built from one pick per group contains a character of each
    group. *)
Lemma picks_cover (pw : string) (picks extra : list ascii)
    (groups : list string) (group : string) :
  list_ascii_of_string pw ≡ₚ picks ++ extra ->
  Forall2 (fun c group => In c (list_ascii_of_string group)) picks groups ->
  In group groups ->
  contains_from group pw = true.
Proof.
  intros Hperm Hpicks Hgroup.
  destruct (picks_meet picks groups group Hpicks Hgroup) as (c & Hin & Hc).
  apply contains_from_intro with c; [|exact Hc].
  apply Permutation_in with (picks ++ extra); [by symmetry|].
  apply in_or_app. by left.
Qed.

(** The password has [max(length, g)] characters, [g] being the number of
    enabled groups. *)
Lemma generate_password_length len upper nums special :
  returns (generate_password len upper nums special)
    (fun pw =>
       Z.of_nat (String.length pw) =
         Z.max len (enabled_groups upper nums special)).
Proof.
  eapply returns_weaken; [apply generate_password_returns|].
  intros pw (picks & extra & Hperm & Hpicks & Hextra & _). cbv beta.
  rewrite <- length_list_ascii_of_string.
  apply Permutation_length in Hperm. rewrite Hperm, length_app, Hextra.
  apply Forall2_length in Hpicks. rewrite Hpicks.
  pose proof (select_groups_length upper nums special) as Hg.
  unfold range_len. lia.
Qed.

End PasswordGeneratorLemmas.

(** ** The claims on the password generator *)

Section PasswordGeneratorClaims.

Implicit Types (len : Z) (upper nums special : bool) (g : rng).

(** C3, as amended.  [generate_password] always returns a password, and the
    password contains an uppercase letter if [upper] is set, a digit if
    [nums] is set and a punctuation character if [special] is set.  Nothing
    is promised about lowercase letters. *)
Theorem generate_password_class_inclusion :
  forall len upper nums special g,
    exists pw g',
      generate_password len upper nums special g = Ok pw g' /\
      (upper = true -> contains_from ascii_uppercase pw = true) /\
      (nums = true -> contains_from digits pw = true) /\
      (special = true -> contains_from punctuation pw = true).
Proof.
  intros len upper nums special g.
  destruct (generate_password_returns len upper nums special g)
    as (pw & g' & Heq & picks & extra & Hperm & Hpicks & _).
  exists pw, g'. split; [exact Heq|].
  rewrite select_groups in Hpicks.
  repeat split; intros ->;
    apply (picks_cover pw picks extra _ _ Hperm Hpicks);
    repeat match goal with b : bool |- _ => destruct b end;
    simpl; auto.
Qed.

Lemma generate_password_class_inclusion_witness :
  exists pw g',
    generate_password 8 true true true (constant_rng 7) = Ok pw g' /\
    contains_from ascii_uppercase pw = true /\
    contains_from digits pw = true /\
    contains_from punctuation pw = true.
Proof.
  destruct (generate_password_class_inclusion 8 true true true
              (constant_rng 7)) as (pw & g' & Heq & Hu & Hn & Hs).
  exists pw, g'. auto.
Defined.

(** C3, as stated, fails on its lowercase part: with [upper] set and every
    draw equal to 26, the eight characters are all uppercase; and with
    length 1 the password is the single required uppercase letter. *)
Lemma generate_password_without_lowercase :
  (1 <= 8 /\
   answer (generate_password 8 true false false (constant_rng 26))
     = inr "AAAAAAAA" /\
   contains_from ascii_lowercase "AAAAAAAA" = false) /\
  (1 <= 1 /\
   answer (generate_password 1 true false false (constant_rng 0))
     = inr "A" /\
   contains_from ascii_lowercase "A" = false).
Proof.
  split; (split; [lia | split; vm_compute; reflexivity]).
Qed.

(** C4, as amended.  [generate_password] has no length check: a length
    smaller than the number of active classes is served like any other.
    With upper, digits and special enabled, length 4 returns four characters
    and length 3 returns three. *)
Theorem generate_password_accepts_short_length :
  (forall len upper nums special g,
     len < active_classes upper nums special ->
     exists pw g', generate_password len upper nums special g = Ok pw g') /\
  (forall g, exists pw g',
     generate_password 4 true true true g = Ok pw g' /\
     String.length pw = 4%nat) /\
  (forall g, exists pw g',
     generate_password 3 true true true g = Ok pw g' /\
     String.length pw = 3%nat).
Proof.
  split; [|split].
  - intros len upper nums special g _.
    destruct (generate_password_length len upper nums special g)
      as (pw & g' & Heq & _).
    by exists pw, g'.
  - intros g.
    destruct (generate_password_length 4 true true true g)
      as (pw & g' & Heq & Hlen).
    exists pw, g'. split; [exact Heq|].
    unfold enabled_groups in Hlen. simpl Z.b2z in Hlen. lia.
  - intros g.
    destruct (generate_password_length 3 true true true g)
      as (pw & g' & Heq & Hlen).
    exists pw, g'. split; [exact Heq|].
    unfold enabled_groups in Hlen. simpl Z.b2z in Hlen. lia.
Qed.

Lemma generate_password_accepts_short_length_witness :
  exists pw g',
    generate_password 2 true true true (constant_rng 7) = Ok pw g'.
Proof.
  apply (proj1 generate_password_accepts_short_length
           2 true true true (constant_rng 7)).
  vm_compute. reflexivity.
Defined.

(** C4, as stated, fails: with upper, digits and special enabled there are
    four active classes, and length 3 is answered with a password, not with
    an error. *)
Lemma generate_password_length_3_no_error :
  3 < active_classes true true true /\
  answer (generate_password 3 true true true (constant_rng 7)) = inr "H(7" /\
  forall e,
    answer (generate_password 3 true true true (constant_rng 7)) <> inl e.
Proof.
  split; [vm_compute; reflexivity|].
  split; [vm_compute; reflexivity|].
  intros e. vm_compute. discriminate.
Qed.

(** C5.  When the length is at least the number of active classes, the
    password returned has exactly [length] characters. *)
Theorem generate_password_length_exact :
  forall len upper nums special g,
    active_classes upper nums special <= len ->
    exists pw g',
      generate_password len upper nums special g = Ok pw g' /\
      Z.of_nat (String.length pw) = len.
Proof.
  intros len upper nums special g Hvalid.
  destruct (generate_password_length len upper nums special g)
    as (pw & g' & Heq & Hlen).
  exists pw, g'. split; [exact Heq|].
  unfold active_classes in Hvalid. lia.
Qed.

Lemma generate_password_length_exact_witness :
  exists pw g',
    generate_password 16 true true true (constant_rng 7) = Ok pw g' /\
    Z.of_nat (String.length pw) = 16.
Proof.
  apply (generate_password_length_exact 16 true true true (constant_rng 7)).
  vm_compute. discriminate.
Defined.

(** C8.  Whatever the flags, the alphabet starts with the lowercase letters
    and is not empty, so the test that guards the error "No character sets
    selected" is never true and [generate_password] never raises it. *)
Theorem generate_password_composition_error_unreachable :
  forall upper nums special,
    (exists more,
       (select upper nums special).1 = ascii_lowercase +:+ more) /\
    String.eqb (select upper nums special).1 EmptyString = false /\
    forall len g msg,
      answer (generate_password len upper nums special g)
        <> inl (ValueError msg).
Proof.
  intros upper nums special.
  split; [apply select_chars|].
  split; [by destruct upper, nums, special|].
  intros len g msg.
  destruct (generate_password_returns len upper nums special g)
    as (pw & g' & -> & _).
  discriminate.
Qed.

(** C9.  For every input [generate_password] returns, without raising, a
    password of [max(length, g)] characters, [g] being the number of
    enabled groups among upper, digits and special; when [length < g] the
    password is longer than asked. *)
Theorem generate_password_length_max :
  forall len upper nums special g,
    exists pw g',
      generate_password len upper nums special g = Ok pw g' /\
      Z.of_nat (String.length pw) =
        Z.max len (enabled_groups upper nums special) /\
      (len < enabled_groups upper nums special ->
       len < Z.of_nat (String.length pw)).
Proof.
  intros len upper nums special g.
  destruct (generate_password_length len upper nums special g)
    as (pw & g' & Heq & Hlen).
  exists pw, g'. split; [exact Heq|]. split; [exact Hlen | lia].
Qed.

Lemma generate_password_length_max_witness :
  exists pw g',
    generate_password 2 true true true (constant_rng 7) = Ok pw g' /\
    Z.of_nat (String.length pw) = 3 /\
    2 < Z.of_nat (String.length pw).
Proof.
  destruct (generate_password_length_max 2 true true true (constant_rng 7))
    as (pw & g' & Heq & Hlen & Hlonger).
  exists pw, g'. split; [exact Heq|]. split; [exact Hlen|].
  apply Hlonger. vm_compute. reflexivity.
Defined.

End PasswordGeneratorClaims.

(** * Properties of the request handler *)

Section HandlerFacts.

Lemma repeat_call_returns {S A} (n : nat) (m : M S A) (P : A -> Prop) :
  returns m P ->
  returns (repeat_call n m) (fun l => length l = n /\ Forall P l).
Proof.
  intros Hm. induction n as [|n IH]; simpl.
  - apply returns_ret. split; [reflexivity | constructor].
  - eapply returns_bind; [exact Hm|].
    intros x Hx. cbv beta.
    eapply returns_bind; [exact IH|].
    intros xs [Hlen Hxs]. cbv beta.
    apply returns_ret. split; [simpl; lia | by constructor].
Qed.

Lemma on_random_returns {A} (m : M rng A) (P : A -> Prop) :
  returns m P ->
  forall w, exists a g',
    on_random m w =
      Ok a {| rate_buckets := rate_buckets w; app_stats := app_stats w;
              random := g' |} /\ P a.
Proof.
  intros Hm w. unfold on_random.
  destruct (Hm (random w)) as (a & g' & -> & Ha).
  by exists a, g'.
Qed.

Lemma clamp_count_nearest (count : Z) :
  clamp_count count = Z.max 1 (Z.min 100 count).
Proof.
  unfold clamp_count.
  destruct (count <? 1) eqn:Hlow.
  - simpl. lia.
  - destruct (count >? 100) eqn:Hhigh; lia.
Qed.



End HandlerFacts.

(** ** Facts on [int] *)

Section IntFacts.











End IntFacts.

(** ** The claim on the request handler *)

Section HandlerClaims.




End HandlerClaims.

(** * Further properties of the rate limiter *)

Section WindowFacts.

Implicit Types (cfg : settings) (ip : string) (tr : bool) (now t : Q).
Implicit Types (rb : gmap string (list Q)) (bucket : list Q).

Lemma within_true window now t :
  within window now t = true <-> (now - t <= window)%Q.
Proof. apply Qle_bool_iff. Qed.

Lemma within_false window now t :
  within window now t = false <-> (window < now - t)%Q.
Proof.
  unfold within. rewrite <- not_true_iff_false, Qle_bool_iff.
  split; [apply Qnot_le_lt | apply Qlt_not_le].
Qed.

Lemma Qgt_bool_within window now t :
  Qgt_bool (now - t) window = negb (within window now t).
Proof. reflexivity. Qed.

Lemma filter_keeps_all {A} (f : A -> bool) (l : list A) :
  Forall (fun x => f x = true) l -> List.filter f l = l.
Proof.
  induction 1 as [|x l Hx _ IH]; simpl; [reflexivity|].
  by rewrite Hx, IH.
Qed.

Lemma filter_length_le {A} (f : A -> bool) (l : list A) :
  (length (List.filter f l) <= length l)%nat.
Proof.
  induction l as [|x l IH]; simpl; [lia|].
  destruct (f x); simpl; lia.
Qed.

(** On a bucket in clock order, pruning keeps exactly the entries of the
    window. *)
Lemma prune_sorted window now bucket :
  StronglySorted Qle bucket ->
  prune window now bucket = List.filter (within window now) bucket.
Proof.
  induction 1 as [|t rest _ IH Hall]; simpl; [reflexivity|].
  rewrite Qgt_bool_within.
  destruct (within window now t) eqn:Hw; simpl; [|exact IH].
  f_equal. symmetry. apply filter_keeps_all.
  apply within_true in Hw.
  eapply Forall_impl; [exact Hall|].
  intros t' Ht'. cbv beta in Ht'. apply within_true. lra.
Qed.

(** A later window is inside what an earlier one kept. *)
Lemma filter_within_later window now now' (l : list Q) :
  (now <= now')%Q ->
  List.filter (within window now') (List.filter (within window now) l) =
    List.filter (within window now') l.
Proof.
  intros Hle. induction l as [|t l IH]; simpl; [reflexivity|].
  destruct (within window now t) eqn:Hw; simpl.
  - by rewrite IH.
  - assert (within window now' t = false) as ->; [|exact IH].
    apply within_false. apply within_false in Hw. lra.
Qed.

Lemma StronglySorted_filter_Qle (f : Q -> bool) (l : list Q) :
  StronglySorted Qle l -> StronglySorted Qle (List.filter f l).
Proof.
  induction 1 as [|t l _ IH Hall]; simpl; [constructor|].
  destruct (f t); [|exact IH].
  constructor; [exact IH|].
  apply List.Forall_forall. intros x Hx.
  apply List.filter_In in Hx as [Hx _].
  rewrite List.Forall_forall in Hall. by apply Hall.
Qed.

Lemma StronglySorted_snoc (l : list Q) now :
  StronglySorted Qle l -> Forall (fun t => (t <= now)%Q) l ->
  StronglySorted Qle (l ++ [now]).
Proof.
  induction 1 as [|t l _ IH Hall]; intros Hnow; simpl.
  - repeat constructor.
  - inversion Hnow as [|? ? Ht Hl]; subst.
    constructor; [by apply IH|].
    apply Forall_app. split; [exact Hall | by constructor].
Qed.

Lemma last_cons_default {A} (l : list A) (x d : A) :
  List.last (x :: l) d = List.last l x.
Proof.
  revert x d. induction l as [|y l IH]; intros x d; [reflexivity|].
  change (List.last (x :: y :: l) d) with (List.last (y :: l) d).
  by rewrite !IH.
Qed.

End WindowFacts.

Section WindowInvariant.

Implicit Types (cfg : settings) (ip : string) (tr : bool) (now t : Q).
Implicit Types (rb : gmap string (list Q)) (bucket : list Q).

(** Served in clock order from a bucket that holds the admitted readings of
    the current window, the calls of one identity keep it so: after each
    call the bucket holds the admitted readings of the window that ends at
    that call, and they are at most [limit]. *)
Lemma serve_window_invariant cfg ip tr :
  (0 <= RATE_LIMIT_WINDOW cfg)%Q ->
  0 < limit_of cfg tr ->
  forall times now0 adm0 rb,
    StronglySorted Qle (now0 :: times) ->
    StronglySorted Qle adm0 ->
    Forall (fun t => (t <= now0)%Q) adm0 ->
    default [] (rb !! ip) =
      List.filter (within (RATE_LIMIT_WINDOW cfg) now0) adm0 ->
    Z.of_nat (length (List.filter (within (RATE_LIMIT_WINDOW cfg) now0) adm0))
      <= limit_of cfg tr ->
    default [] (serve_final cfg (calls_at ip tr times) rb !! ip) =
      List.filter (within (RATE_LIMIT_WINDOW cfg) (List.last times now0))
        (adm0 ++ accepted_times cfg (calls_at ip tr times) rb) /\
    Z.of_nat
      (length
         (List.filter (within (RATE_LIMIT_WINDOW cfg) (List.last times now0))
            (adm0 ++ accepted_times cfg (calls_at ip tr times) rb)))
      <= limit_of cfg tr.
Proof.
  intros HW HL. unfold limit_of in *.
  induction times as [|t rest IH]; intros now0 adm0 rb Hs Hadm Hle Hb Hlen.
  { simpl. rewrite app_nil_r. by split. }
  rewrite last_cons_default.
  inversion Hs as [|? ? Hrest Hnow0]; subst.
  assert (now0 <= t)%Q as Ht by (by inversion Hnow0).
  assert (Forall (fun t' => (t' <= t)%Q) adm0) as Hle'.
  { eapply Forall_impl; [exact Hle|]. intros t' Ht'. cbv beta in Ht'. lra. }
  assert (prune (RATE_LIMIT_WINDOW cfg) t (default [] (rb !! ip)) =
            List.filter (within (RATE_LIMIT_WINDOW cfg) t) adm0) as Hbucket.
  { rewrite Hb, prune_sorted by (by apply StronglySorted_filter_Qle).
    by apply filter_within_later. }
  assert (Z.of_nat
            (length (List.filter (within (RATE_LIMIT_WINDOW cfg) t) adm0))
          <= (if tr then TRUSTED_RATE_LIMIT cfg else PUBLIC_RATE_LIMIT cfg))
    as Hlen'.
  { rewrite <- (filter_within_later _ now0 t) by exact Ht.
    pose proof (filter_length_le (within (RATE_LIMIT_WINDOW cfg) t)
                  (List.filter (within (RATE_LIMIT_WINDOW cfg) now0) adm0)).
    lia. }
  simpl. rewrite check_rate_limit_unfold. cbv zeta. rewrite Hbucket.
  destruct (_ >=? _) eqn:Hge.
  - apply Z.geb_le in Hge.
    destruct (List.filter (within (RATE_LIMIT_WINDOW cfg) t) adm0)
      as [|oldest kept] eqn:Hf.
    { simpl in Hge. lia. }
    simpl answer. simpl final. cbv iota beta.
    rewrite <- Hf in *.
    apply IH; try assumption.
    by rewrite lookup_insert_eq.
  - simpl answer. simpl final. cbv iota beta.
    assert (List.filter (within (RATE_LIMIT_WINDOW cfg) t) (adm0 ++ [t]) =
              List.filter (within (RATE_LIMIT_WINDOW cfg) t) adm0 ++ [t])
      as Hsnoc.
    { rewrite List.filter_app. simpl.
      assert (within (RATE_LIMIT_WINDOW cfg) t t = true) as ->; [|done].
      apply within_true. lra. }
    replace (adm0 ++ t :: accepted_times cfg (calls_at ip tr rest)
               (<[ip := List.filter (within (RATE_LIMIT_WINDOW cfg) t) adm0
                          ++ [t]]> rb))
      with ((adm0 ++ [t]) ++ accepted_times cfg (calls_at ip tr rest)
               (<[ip := List.filter (within (RATE_LIMIT_WINDOW cfg) t) adm0
                          ++ [t]]> rb))
      by (by rewrite <- app_assoc).
    apply IH.
    + exact Hrest.
    + by apply StronglySorted_snoc.
    + apply Forall_app. split; [exact Hle'|].
      constructor; [lra | constructor].
    + by rewrite lookup_insert_eq, Hsnoc.
    + rewrite Hsnoc, length_app. simpl. lia.
Qed.

End WindowInvariant.

Section RateLimiterExtras.

Implicit Types (cfg : settings) (ip : string) (tr : bool) (now t : Q).
Implicit Types (rb : gmap string (list Q)) (bucket : list Q).

(** X1.  When both limits are positive, as the shipped ones are,
    [check_rate_limit] never raises: it answers either [(True, None)] or
    [(False, retry_after)] with a number. *)
Theorem check_rate_limit_never_raises :
  forall cfg,
    0 < PUBLIC_RATE_LIMIT cfg -> 0 < TRUSTED_RATE_LIMIT cfg ->
    forall ip tr now rb,
      exists decision rb',
        check_rate_limit cfg ip tr now rb = Ok decision rb' /\
        (decision = (true, None) \/
         exists retry_after, decision = (false, Some retry_after)).
Proof.
  intros cfg Hpub Htrusted ip tr now rb.
  rewrite check_rate_limit_unfold. cbv zeta.
  destruct (_ >=? _) eqn:Hge.
  - apply Z.geb_le in Hge.
    destruct (prune _ _ _) as [|oldest rest].
    + simpl in Hge. destruct tr; lia.
    + eexists _, _. split; [reflexivity|]. right. by eexists.
  - eexists _, _. split; [reflexivity|]. by left.
Qed.

Lemma check_rate_limit_never_raises_witness :
  exists decision rb',
    check_rate_limit app_settings "A" true 5 ∅ = Ok decision rb' /\
    (decision = (true, None) \/
     exists retry_after, decision = (false, Some retry_after)).
Proof.
  apply (check_rate_limit_never_raises app_settings); reflexivity.
Defined.

(** X2.  No bucket grows beyond the larger of the two limits: a bound that
    holds for every bucket before a call holds for every bucket after it. *)
Theorem check_rate_limit_bucket_bound :
  forall cfg ip tr now rb (bound : Z),
    PUBLIC_RATE_LIMIT cfg <= bound ->
    TRUSTED_RATE_LIMIT cfg <= bound ->
    (forall ip', Z.of_nat (length (default [] (rb !! ip'))) <= bound) ->
    forall ip',
      Z.of_nat
        (length
           (default [] (final (check_rate_limit cfg ip tr now rb) !! ip')))
        <= bound.
Proof.
  intros cfg ip tr now rb bound Hpub Htrusted Hrb ip'.
  destruct (decide (ip = ip')) as [<-|Hne].
  - rewrite check_rate_limit_unfold. cbv zeta.
    pose proof (prune_length (RATE_LIMIT_WINDOW cfg) now
                  (default [] (rb !! ip))) as Hprune.
    specialize (Hrb ip).
    destruct (_ >=? _) eqn:Hge.
    + destruct (prune _ _ _) as [|oldest rest] eqn:Hp; simpl final;
        rewrite lookup_insert_eq; simpl default; lia.
    + simpl final. rewrite lookup_insert_eq. simpl default.
      rewrite length_app. simpl length.
      assert (Z.of_nat
                (length (prune (RATE_LIMIT_WINDOW cfg) now
                           (default [] (rb !! ip))))
              < (if tr then TRUSTED_RATE_LIMIT cfg
                 else PUBLIC_RATE_LIMIT cfg)) as Hlt.
      { rewrite Z.geb_leb in Hge. by apply Z.leb_gt in Hge. }
      destruct tr; lia.
  - rewrite check_rate_limit_frame by exact Hne. apply Hrb.
Qed.

Lemma check_rate_limit_bucket_bound_witness :
  Z.of_nat
    (length
       (default []
          (final (check_rate_limit three_per_minute "A" false 2
                    {["A" := [0; 1]%Q]}) !! "A")))
    <= 300.
Proof.
  apply (check_rate_limit_bucket_bound three_per_minute "A" false 2%Q
           {["A" := [0; 1]%Q]} 300).
  - vm_compute. discriminate.
  - vm_compute. discriminate.
  - intros ip'. destruct (decide (ip' = "A")) as [->|Hne].
    + vm_compute. discriminate.
    + rewrite lookup_singleton_ne by done. vm_compute. discriminate.
Defined.

(** X3.  A bucket in clock order whose entries are not later than the
    clock is left in clock order, and after the call every entry it holds is
    not later than the clock and lies in the window that ends at the clock
    reading. *)
Theorem check_rate_limit_keeps_clock_order :
  forall cfg ip tr now rb,
    (0 <= RATE_LIMIT_WINDOW cfg)%Q ->
    StronglySorted Qle (default [] (rb !! ip)) ->
    Forall (fun t => (t <= now)%Q) (default [] (rb !! ip)) ->
    StronglySorted Qle
      (default [] (final (check_rate_limit cfg ip tr now rb) !! ip)) /\
    Forall (fun t => (t <= now)%Q /\ (now - t <= RATE_LIMIT_WINDOW cfg)%Q)
      (default [] (final (check_rate_limit cfg ip tr now rb) !! ip)).
Proof.
  intros cfg ip tr now rb HW Hsorted Hpast.
  rewrite check_rate_limit_unfold. cbv zeta.
  rewrite prune_sorted by exact Hsorted.
  set (kept := List.filter (within (RATE_LIMIT_WINDOW cfg) now)
                 (default [] (rb !! ip))).
  assert (StronglySorted Qle kept) as Hkept
    by (by apply StronglySorted_filter_Qle).
  assert (Forall (fun t => (t <= now)%Q /\
                           (now - t <= RATE_LIMIT_WINDOW cfg)%Q) kept)
    as Hwin.
  { apply List.Forall_forall. intros t Ht.
    apply List.filter_In in Ht as [Ht Hw].
    rewrite List.Forall_forall in Hpast.
    split; [by apply Hpast | by apply within_true]. }
  destruct (_ >=? _).
  - destruct kept as [|oldest rest] eqn:Hk; simpl final;
      rewrite lookup_insert_eq; simpl default; by split.
  - simpl final. rewrite lookup_insert_eq. simpl default. split.
    + apply StronglySorted_snoc; [exact Hkept|].
      eapply Forall_impl; [exact Hwin|]. by intros t [Ht _].
    + apply Forall_app. split; [exact Hwin|].
      constructor; [|constructor]. split; lra.
Qed.

Lemma check_rate_limit_keeps_clock_order_witness :
  StronglySorted Qle
    (default []
       (final (check_rate_limit three_per_minute "A" false 61
                 {["A" := [0; 1; 2]%Q]}) !! "A")) /\
  Forall (fun t => (t <= 61)%Q /\ (61 - t <= 60)%Q)
    (default []
       (final (check_rate_limit three_per_minute "A" false 61
                 {["A" := [0; 1; 2]%Q]}) !! "A")).
Proof.
  apply (check_rate_limit_keeps_clock_order three_per_minute "A" false 61%Q
           {["A" := [0; 1; 2]%Q]}).
  - vm_compute. discriminate.
  - repeat first [apply SSorted_nil | apply SSorted_cons
                 | apply List.Forall_nil | apply List.Forall_cons
                 | (vm_compute; discriminate)].
  - repeat first [apply List.Forall_nil | apply List.Forall_cons
                 | (vm_compute; discriminate)].
Defined.

End RateLimiterExtras.

Section RateLimiterGuarantees.

Implicit Types (cfg : settings) (ip : string) (tr : bool) (now t : Q).
Implicit Types (rb : gmap string (list Q)) (bucket : list Q).

(** X4.  The sliding-window guarantee.  When an identity without recorded
    requests is served at clock readings that never decrease, always in the
    same tier, then at every call the admitted calls that lie in the window
    ending at that call, the call itself included, are at most [limit]. *)
Theorem accepted_calls_per_window :
  forall cfg ip tr times now rb,
    (0 <= RATE_LIMIT_WINDOW cfg)%Q ->
    0 < limit_of cfg tr ->
    default [] (rb !! ip) = [] ->
    StronglySorted Qle (times ++ [now]) ->
    Z.of_nat
      (length
         (List.filter (within (RATE_LIMIT_WINDOW cfg) now)
            (accepted_times cfg (calls_at ip tr (times ++ [now])) rb)))
      <= limit_of cfg tr.
Proof.
  intros cfg ip tr times now rb HW HL Hempty Hsorted.
  assert (exists first, StronglySorted Qle (first :: times ++ [now]))
    as [first Hfirst].
  { destruct times as [|t times].
    - exists now. repeat constructor. apply Qle_refl.
    - exists t. constructor; [exact Hsorted|].
      inversion Hsorted; subst. constructor; [apply Qle_refl | assumption]. }
  destruct (serve_window_invariant cfg ip tr HW HL (times ++ [now]) first []
              rb Hfirst) as [_ Hbound].
  - constructor.
  - constructor.
  - exact Hempty.
  - simpl. lia.
  - rewrite last_last in Hbound. exact Hbound.
Qed.

Lemma accepted_calls_per_window_witness :
  Z.of_nat
    (length
       (List.filter (within 60 61)
          (accepted_times three_per_minute
             (calls_at "A" false ([0; 1; 2; 3]%Q ++ [61%Q])) ∅)))
    <= 3.
Proof.
  apply (accepted_calls_per_window three_per_minute "A" false
           [0; 1; 2; 3]%Q 61%Q ∅).
  - vm_compute. discriminate.
  - reflexivity.
  - reflexivity.
  - repeat first [apply SSorted_nil | apply SSorted_cons
                 | apply List.Forall_nil | apply List.Forall_cons
                 | (vm_compute; discriminate)].
Defined.

(** X5.  Waiting one second more than [retry_after] is enough.  After a
    rejection of a bucket that held no more than [limit] entries, the next
    call of the identity in the same tier, made [retry_after + 1] seconds
    later or more, is admitted. *)
Theorem retry_after_plus_one_is_accepted :
  forall cfg ip tr now now' rb retry_after rb',
    check_rate_limit cfg ip tr now rb = Ok (false, Some retry_after) rb' ->
    Z.of_nat (length (default [] (rb !! ip))) <= limit_of cfg tr ->
    (now + inject_Z (retry_after + 1) <= now')%Q ->
    answer (check_rate_limit cfg ip tr now' rb') = inr (true, None).
Proof.
  intros cfg ip tr now now' rb retry_after rb'.
  unfold limit_of. rewrite check_rate_limit_unfold. cbv zeta.
  pose proof (prune_length (RATE_LIMIT_WINDOW cfg) now
                (default [] (rb !! ip))) as Hprune.
  destruct (_ >=? _) eqn:Hge; [|discriminate].
  apply Z.geb_le in Hge.
  destruct (prune _ _ _) as [|oldest rest] eqn:Hp; [discriminate|].
  intros [= <- <-] Hlen Hwait.
  apply prune_front in Hp.
  assert (0 <= RATE_LIMIT_WINDOW cfg - (now - oldest))%Q as Hpos by lra.
  destruct (py_int_floor _ Hpos) as [Hfloor _].
  rewrite Hfloor in Hwait.
  pose proof (Qlt_floor (RATE_LIMIT_WINDOW cfg - (now - oldest))) as Hfl.
  rewrite check_rate_limit_unfold. cbv zeta.
  rewrite lookup_insert_eq. simpl default.
  assert (Qgt_bool (now' - oldest) (RATE_LIMIT_WINDOW cfg) = true) as Hold.
  { apply Qgt_bool_true. lra. }
  simpl prune. rewrite Hold.
  pose proof (prune_length (RATE_LIMIT_WINDOW cfg) now' rest) as Hrest.
  simpl length in Hprune, Hge.
  destruct (_ >=? _) eqn:Hge'; [|reflexivity].
  apply Z.geb_le in Hge'. destruct tr; lia.
Qed.

Lemma retry_after_plus_one_is_accepted_witness :
  answer (check_rate_limit three_per_minute "A" false 61
            {["A" := [0; 1; 2]%Q]}) = inr (true, None).
Proof.
  apply (retry_after_plus_one_is_accepted three_per_minute "A" false
           3%Q 61%Q {["A" := [0; 1; 2]%Q]} 57).
  - vm_compute. reflexivity.
  - vm_compute. discriminate.
  - vm_compute. discriminate.
Defined.

(** X6.  When no entry of the bucket is later than the clock, the
    [retry_after] of a rejection lies between zero and the window. *)
Theorem retry_after_within_window :
  forall cfg ip tr now rb retry_after rb',
    check_rate_limit cfg ip tr now rb = Ok (false, Some retry_after) rb' ->
    Forall (fun t => (t <= now)%Q) (default [] (rb !! ip)) ->
    0 <= retry_after /\ (inject_Z retry_after <= RATE_LIMIT_WINDOW cfg)%Q.
Proof.
  intros cfg ip tr now rb retry_after rb'.
  rewrite check_rate_limit_unfold. cbv zeta.
  destruct (_ >=? _); [|discriminate].
  destruct (prune _ _ _) as [|oldest rest] eqn:Hp; [discriminate|].
  intros [= <- _] Hpast.
  assert (oldest <= now)%Q as Hold.
  { destruct (prune_split (RATE_LIMIT_WINDOW cfg) now
                (default [] (rb !! ip))) as (popped & Heq & _).
    rewrite Hp in Heq. rewrite Heq in Hpast.
    apply Forall_app in Hpast as [_ Hpast]. by inversion Hpast. }
  apply prune_front in Hp.
  assert (0 <= RATE_LIMIT_WINDOW cfg - (now - oldest))%Q as Hpos by lra.
  destruct (py_int_floor _ Hpos) as [Hfloor Hnn].
  split; [exact Hnn|]. rewrite Hfloor.
  pose proof (Qfloor_le (RATE_LIMIT_WINDOW cfg - (now - oldest))). lra.
Qed.

Lemma retry_after_within_window_witness :
  0 <= 57 /\ (inject_Z 57 <= 60)%Q.
Proof.
  apply (retry_after_within_window three_per_minute "A" false 3%Q
           {["A" := [0; 1; 2]%Q]} 57 {["A" := [0; 1; 2]%Q]}).
  - vm_compute. reflexivity.
  - repeat first [apply List.Forall_nil | apply List.Forall_cons
                 | (vm_compute; discriminate)].
Defined.

(** X7.  The trusted tier is never the stricter one: when the trusted limit
    is not below the public limit, a call that is admitted as public is
    admitted as trusted, with the same effect on the buckets. *)
Theorem trusted_tier_never_stricter :
  forall cfg ip now rb rb',
    PUBLIC_RATE_LIMIT cfg <= TRUSTED_RATE_LIMIT cfg ->
    check_rate_limit cfg ip false now rb = Ok (true, None) rb' ->
    check_rate_limit cfg ip true now rb = Ok (true, None) rb'.
Proof.
  intros cfg ip now rb rb' Hle.
  rewrite !check_rate_limit_unfold. cbv zeta.
  destruct (_ >=? PUBLIC_RATE_LIMIT cfg) eqn:Hpub.
  { destruct (prune _ _ _); discriminate. }
  intros [= <-].
  destruct (_ >=? TRUSTED_RATE_LIMIT cfg) eqn:Htrusted; [|reflexivity].
  apply Z.geb_le in Htrusted. rewrite Z.geb_leb in Hpub.
  apply Z.leb_gt in Hpub. lia.
Qed.

Lemma trusted_tier_never_stricter_witness :
  check_rate_limit app_settings "A" true 5 {["A" := [0; 1]%Q]} =
    Ok (true, None) {["A" := [0; 1; 5]%Q]}.
Proof.
  apply (trusted_tier_never_stricter app_settings "A" 5%Q
           {["A" := [0; 1]%Q]}).
  - vm_compute. discriminate.
  - vm_compute. reflexivity.
Defined.

End RateLimiterGuarantees.

(** * Further properties of the password generator *)

Section AlphabetFacts.

Implicit Types (len : Z) (upper nums special : bool) (g : rng).

Lemma select_chars_list upper nums special :
  list_ascii_of_string (select upper nums special).1 =
    list_ascii_of_string ascii_lowercase ++
    (if upper then list_ascii_of_string ascii_uppercase else []) ++
    (if nums then list_ascii_of_string digits else []) ++
    (if special then list_ascii_of_string punctuation else []).
Proof. by destruct upper, nums, special. Qed.

(** A character of the alphabet is a lowercase letter or belongs to a group
    that is switched on. *)
Lemma alphabet_classes upper nums special (c : ascii) :
  In c (list_ascii_of_string (select upper nums special).1) ->
  In c (list_ascii_of_string ascii_lowercase) \/
  (upper = true /\ In c (list_ascii_of_string ascii_uppercase)) \/
  (nums = true /\ In c (list_ascii_of_string digits)) \/
  (special = true /\ In c (list_ascii_of_string punctuation)).
Proof.
  rewrite select_chars_list, !in_app_iff.
  intros [H|[H|[H|H]]]; [by left| | |].
  - destruct upper; [|destruct H]. right. left. by split.
  - destruct nums; [|destruct H]. right. right. left. by split.
  - destruct special; [|destruct H]. right. right. right. by split.
Qed.

(** Every required group is part of the alphabet. *)
Lemma group_in_alphabet upper nums special (group : string) (c : ascii) :
  In group (select upper nums special).2 ->
  In c (list_ascii_of_string group) ->
  In c (list_ascii_of_string (select upper nums special).1).
Proof.
  rewrite select_groups, select_chars_list, !in_app_iff.
  intros [Hg|[Hg|Hg]] Hc.
  - destruct upper; [|destruct Hg]. destruct Hg as [<-|[]]. auto.
  - destruct nums; [|destruct Hg]. destruct Hg as [<-|[]]. auto.
  - destruct special; [|destruct Hg]. destruct Hg as [<-|[]]. auto.
Qed.

Lemma picks_in_alphabet (picks : list ascii) (groups : list string)
    (chars : string) :
  Forall2 (fun c group => In c (list_ascii_of_string group)) picks groups ->
  (forall group c,
     In group groups -> In c (list_ascii_of_string group) ->
     In c (list_ascii_of_string chars)) ->
  Forall (fun c => In c (list_ascii_of_string chars)) picks.
Proof.
  induction 1 as [|c group picks groups Hc _ IH]; intros Hsub.
  - constructor.
  - constructor.
    + apply (Hsub group c); [by left | exact Hc].
    + apply IH. intros group' c' Hin. apply Hsub. by right.
Qed.

(** Two strings without a common character. *)
Lemma disjoint_strings (a b : string) (c : ascii) :
  forallb (fun x => negb (existsb (Ascii.eqb x) (list_ascii_of_string b)))
          (list_ascii_of_string a) = true ->
  In c (list_ascii_of_string a) ->
  existsb (Ascii.eqb c) (list_ascii_of_string b) = false.
Proof.
  intros Hall Hc. rewrite forallb_forall in Hall.
  apply negb_true_iff. by apply Hall.
Qed.

Lemma contains_from_none (group s : string) :
  (forall c, In c (list_ascii_of_string s) ->
             existsb (Ascii.eqb c) (list_ascii_of_string group) = false) ->
  contains_from group s = false.
Proof.
  intros Hnone. unfold contains_from.
  apply not_true_iff_false. intros (c & Hc & Hin)%existsb_exists.
  rewrite (Hnone c Hc) in Hin. discriminate.
Qed.

(** All that the generator guarantees of a password, in one statement: its
    length, a character of each enabled group, and characters of the
    alphabet only. *)
Lemma generate_password_good len upper nums special :
  returns (generate_password len upper nums special)
    (fun pw =>
       Z.of_nat (String.length pw) =
         Z.max len (enabled_groups upper nums special) /\
       (upper = true -> contains_from ascii_uppercase pw = true) /\
       (nums = true -> contains_from digits pw = true) /\
       (special = true -> contains_from punctuation pw = true) /\
       Forall (fun c =>
                 In c (list_ascii_of_string (select upper nums special).1))
              (list_ascii_of_string pw)).
Proof.
  intros g.
  destruct (generate_password_returns len upper nums special g)
    as (pw & g' & Heq & picks & extra & Hperm & Hpicks & Hextra & Hfill).
  destruct (generate_password_length len upper nums special g)
    as (pw' & g'' & Heq' & Hlen).
  rewrite Heq in Heq'. injection Heq' as <- <-.
  exists pw, g'. split; [exact Heq|]. split; [exact Hlen|].
  assert (Forall (fun c =>
                    In c (list_ascii_of_string
                            (select upper nums special).1))
                 (list_ascii_of_string pw)) as Halpha.
  { eapply Permutation_Forall; [symmetry; exact Hperm|].
    apply Forall_app. split; [|exact Hfill].
    eapply picks_in_alphabet; [exact Hpicks|].
    intros group c. apply group_in_alphabet. }
  rewrite select_groups in Hpicks.
  repeat split; try exact Halpha; intros ->;
    apply (picks_cover pw picks extra _ _ Hperm Hpicks);
    repeat match goal with b : bool |- _ => destruct b end;
    simpl; auto.
Qed.

End AlphabetFacts.

Section PasswordGeneratorExtras.

Implicit Types (len : Z) (upper nums special : bool) (g : rng).

(** X8.  Every character of a generated password is a lowercase letter or
    belongs to a group that is switched on. *)
Theorem generate_password_alphabet :
  forall len upper nums special g,
    exists pw g',
      generate_password len upper nums special g = Ok pw g' /\
      forall c,
        In c (list_ascii_of_string pw) ->
        In c (list_ascii_of_string ascii_lowercase) \/
        (upper = true /\ In c (list_ascii_of_string ascii_uppercase)) \/
        (nums = true /\ In c (list_ascii_of_string digits)) \/
        (special = true /\ In c (list_ascii_of_string punctuation)).
Proof.
  intros len upper nums special g.
  destruct (generate_password_good len upper nums special g)
    as (pw & g' & Heq & _ & _ & _ & _ & Halpha).
  exists pw, g'. split; [exact Heq|].
  intros c Hc. apply alphabet_classes.
  rewrite List.Forall_forall in Halpha. by apply Halpha.
Qed.

Lemma generate_password_alphabet_witness :
  In "A"%char (list_ascii_of_string ascii_lowercase) \/
  (true = true /\ In "A"%char (list_ascii_of_string ascii_uppercase)) \/
  (false = true /\ In "A"%char (list_ascii_of_string digits)) \/
  (false = true /\ In "A"%char (list_ascii_of_string punctuation)).
Proof.
  destruct (generate_password_alphabet 8 true false false (constant_rng 26))
    as (pw & g' & Heq & Hclasses).
  apply Hclasses. vm_compute in Heq. injection Heq as <- _.
  simpl. auto.
Defined.

(** X9.  A group that is switched off never shows in the password: no
    uppercase letter without [upper], no digit without [nums], no
    punctuation without [special]. *)
Theorem generate_password_excludes_disabled :
  forall len upper nums special g,
    exists pw g',
      generate_password len upper nums special g = Ok pw g' /\
      (upper = false -> contains_from ascii_uppercase pw = false) /\
      (nums = false -> contains_from digits pw = false) /\
      (special = false -> contains_from punctuation pw = false).
Proof.
  intros len upper nums special g.
  destruct (generate_password_good len upper nums special g)
    as (pw & g' & Heq & _ & _ & _ & _ & Halpha).
  exists pw, g'. split; [exact Heq|].
  rewrite List.Forall_forall in Halpha.
  repeat split; intros ->; apply contains_from_none; intros c Hc;
    destruct (alphabet_classes _ _ _ c (Halpha c Hc))
      as [H|[[? H]|[[? H]|[? H]]]];
    try discriminate;
    revert H; apply disjoint_strings; vm_compute; reflexivity.
Qed.

Lemma generate_password_excludes_disabled_witness :
  exists pw g',
    generate_password 12 false true false (constant_rng 7) = Ok pw g' /\
    contains_from ascii_uppercase pw = false /\
    contains_from punctuation pw = false.
Proof.
  destruct (generate_password_excludes_disabled 12 false true false
              (constant_rng 7)) as (pw & g' & Heq & Hu & _ & Hs).
  exists pw, g'. auto.
Defined.

End PasswordGeneratorExtras.

(** * Further properties of the request handler *)

Section HandlerCases.

Implicit Types (cfg : settings) (req : request) (now ts : Q) (w : world).

(** The outcome of [api_generate], read off the outcome of the rate limiter
    and the parameters of the request. *)
Lemma api_generate_cases cfg req now ts w :
  let counted rb :=
    {| rate_buckets := rb; app_stats := app_stats w; random := random w |} in
  match check_rate_limit cfg (client_ip req) (is_trusted req) now
          (rate_buckets w) with
  | Raise e rb => api_generate cfg req now ts w = Raise e (counted rb)
  | Ok (false, retry_after) rb =>
      api_generate cfg req now ts w =
        Ok (RateLimitExceeded retry_after) (counted rb)
  | Ok (true, _) rb =>
      match int_arg "length" 16 (args req) with
      | None =>
          api_generate cfg req now ts w =
            Ok (BadRequest "Invalid length") (counted rb)
      | Some len =>
          if (8 <=? len) && (len <=? 128) then
            match int_arg "count" 1 (args req) with
            | None =>
                api_generate cfg req now ts w =
                  Ok (BadRequest "Invalid count") (counted rb)
            | Some count =>
                exists passwords g',
                  api_generate cfg req now ts w =
                    Ok (Passwords passwords)
                       {| rate_buckets := rb;
                          app_stats :=
                            {| total_requests :=
                                 total_requests (app_stats w) + 1;
                               total_passwords_generated :=
                                 total_passwords_generated (app_stats w)
                                 + Z.of_nat (length passwords);
                               last_request_ts := Some ts |};
                          random := g' |} /\
                  Z.of_nat (length passwords) = clamp_count count /\
                  Forall
                    (fun pw =>
                       Z.of_nat (String.length pw) = len /\
                       (flag "upper" (args req) = true ->
                        contains_from ascii_uppercase pw = true) /\
                       (flag "numbers" (args req) = true ->
                        contains_from digits pw = true) /\
                       (flag "special" (args req) = true ->
                        contains_from punctuation pw = true))
                    passwords
            end
          else
            api_generate cfg req now ts w =
              Ok (BadRequest "Length must be between 8 and 128") (counted rb)
      end
  end.
Proof.
  cbv zeta.
  destruct (check_rate_limit _ _ _ _ _) as [[allowed retry_after] rb|e rb]
    eqn:Hcheck.
  2: { unfold api_generate, bind at 1, on_buckets. by rewrite Hcheck. }
  destruct allowed.
  2: { unfold api_generate, bind at 1, on_buckets. by rewrite Hcheck. }
  destruct (int_arg "length" 16 (args req)) as [len|] eqn:Hlength.
  2: { unfold api_generate, bind at 1, on_buckets.
       by rewrite Hcheck, Hlength. }
  destruct ((8 <=? len) && (len <=? 128)) eqn:Hrange.
  2: { unfold api_generate, bind at 1, on_buckets.
       by rewrite Hcheck, Hlength, Hrange. }
  destruct (int_arg "count" 1 (args req)) as [count|] eqn:Hcount.
  2: { unfold api_generate, bind at 1, on_buckets.
       by rewrite Hcheck, Hlength, Hrange, Hcount. }
  unfold api_generate, bind at 1, on_buckets.
  rewrite Hcheck, Hlength, Hrange, Hcount.
  change (negb true) with false. cbv iota zeta.
  set (w1 := {| rate_buckets := rb |}).
  destruct (on_random_returns
              (repeat_call (Z.to_nat (clamp_count count))
                 (generate_password len (flag "upper" (args req))
                    (flag "numbers" (args req)) (flag "special" (args req))))
              _ (repeat_call_returns _ _ _
                   (generate_password_good len _ _ _)) w1)
    as (passwords & g' & Hgen & Hn & Hall).
  unfold bind, except_ValueError. cbv beta. rewrite Hgen.
  unfold ret, update_stats. cbv beta iota. simpl.
  exists passwords, g'. split; [reflexivity|].
  pose proof (clamp_count_nearest count) as Hclamp.
  split; [lia|].
  eapply Forall_impl; [exact Hall|].
  intros pw (Hlen & Hu & Hd & Hs & _). cbv beta.
  split; [|by repeat split].
  assert (enabled_groups (flag "upper" (args req))
            (flag "numbers" (args req)) (flag "special" (args req)) <= 3)
    by (unfold enabled_groups;
        destruct (flag "upper" _), (flag "numbers" _), (flag "special" _);
        simpl; lia).
  lia.
Qed.

End HandlerCases.

(** The cases of [api_generate_cases], one goal for each. *)
Ltac api_cases cfg req now ts w :=
  let Hcases := fresh "Hcases" in
  pose proof (api_generate_cases cfg req now ts w) as Hcases;
  cbv zeta in Hcases;
  destruct (check_rate_limit cfg (client_ip req) (is_trusted req) now
              (rate_buckets w)) as [[[|] ?retry] ?rb|?e ?rb] eqn:Hcheck;
  [ destruct (int_arg "length" 16 (args req)) as [?len|] eqn:Hlength;
    [ destruct ((8 <=? len) && (len <=? 128)) eqn:Hrange;
      [ destruct (int_arg "count" 1 (args req)) as [?count|] eqn:Hcount;
        [ destruct Hcases as (?passwords & ?g' & Hcases & Hserved & Hgood)
        | ]
      | ]
    | ]
  | | ].

Section HandlerExtras.

Implicit Types (cfg : settings) (req : request) (now ts : Q) (w : world).

(** X10.  With positive limits, as the shipped ones are, [api_generate]
    never raises: whatever the request and the state, it returns one of its
    three responses. *)
Theorem api_generate_never_raises :
  forall cfg,
    0 < PUBLIC_RATE_LIMIT cfg -> 0 < TRUSTED_RATE_LIMIT cfg ->
    forall req now ts w,
      exists resp w', api_generate cfg req now ts w = Ok resp w'.
Proof.
  intros cfg Hpub Htrusted req now ts w.
  assert (0 < (if is_trusted req then TRUSTED_RATE_LIMIT cfg
               else PUBLIC_RATE_LIMIT cfg)) as Hlimit
    by (by destruct (is_trusted req)).
  destruct (check_rate_limit_returns cfg (client_ip req) (is_trusted req)
              now (rate_buckets w) Hlimit) as (d & rb0 & Hok).
  api_cases cfg req now ts w; try discriminate;
    rewrite Hcases; by eexists _, _.
Qed.

Lemma api_generate_never_raises_witness :
  exists resp w',
    api_generate app_settings (request_from "10.0.0.1" [("length", "x")])
      0 0 (fresh (constant_rng 7)) = Ok resp w'.
Proof.
  apply (api_generate_never_raises app_settings); reflexivity.
Defined.

(** X11.  Only a successful generation touches the counters and the random
    source: with any other response, [stats] and the random source are as
    they were before the request. *)
Theorem api_generate_failure_leaves_stats :
  forall cfg req now ts w resp w',
    api_generate cfg req now ts w = Ok resp w' ->
    (forall passwords, resp <> Passwords passwords) ->
    app_stats w' = app_stats w /\ random w' = random w.
Proof.
  intros cfg req now ts w resp w' Heq Hfail.
  api_cases cfg req now ts w; rewrite Hcases in Heq;
    try discriminate; injection Heq as <- <-; try by split.
  by destruct (Hfail passwords).
Qed.

Lemma api_generate_failure_leaves_stats_witness :
  app_stats
    (final (api_generate app_settings
              (request_from "10.0.0.1" [("length", "7")]) 0 0
              (fresh (constant_rng 7))))
    = app_stats (fresh (constant_rng 7)) /\
  random
    (final (api_generate app_settings
              (request_from "10.0.0.1" [("length", "7")]) 0 0
              (fresh (constant_rng 7))))
    = random (fresh (constant_rng 7)).
Proof.
  apply (api_generate_failure_leaves_stats app_settings
           (request_from "10.0.0.1" [("length", "7")]) 0%Q 0%Q
           (fresh (constant_rng 7))
           (BadRequest "Length must be between 8 and 128")).
  - vm_compute. reflexivity.
  - discriminate.
Defined.

(** X12.  A request refused for its parameters has been counted by the rate
    limiter all the same: after any 400 response the bucket of the client
    is its pruned bucket followed by the clock reading of the request. *)
Theorem api_generate_bad_request_consumes_budget :
  forall cfg req now ts w error w',
    api_generate cfg req now ts w = Ok (BadRequest error) w' ->
    rate_buckets w' !! client_ip req =
      Some (prune (RATE_LIMIT_WINDOW cfg) now
              (default [] (rate_buckets w !! client_ip req)) ++ [now]).
Proof.
  intros cfg req now ts w error w' Heq.
  api_cases cfg req now ts w; rewrite Hcases in Heq;
    try discriminate; injection Heq as _ <-; simpl;
    rewrite check_rate_limit_unfold in Hcheck; cbv zeta in Hcheck;
    destruct (_ >=? _);
    try (destruct (prune _ _ _); discriminate);
    injection Hcheck as _ <-; by rewrite lookup_insert_eq.
Qed.

Lemma api_generate_bad_request_consumes_budget_witness :
  rate_buckets
    (final (api_generate app_settings
              (request_from "10.0.0.1" [("count", "many")]) 5 5
              (fresh (constant_rng 7)))) !! "10.0.0.1"
    = Some (prune 60 5 (default [] ((∅ : gmap string (list Q)) !! "10.0.0.1"))
              ++ [5%Q]).
Proof.
  apply (api_generate_bad_request_consumes_budget app_settings
           (request_from "10.0.0.1" [("count", "many")]) 5%Q 5%Q
           (fresh (constant_rng 7)) "Invalid count").
  vm_compute. reflexivity.
Defined.

(** X13.  After a successful generation [api_stats] reports one request
    more, as many passwords more as were returned, and the clock reading of
    the request; between 1 and 100 passwords are returned. *)
Theorem api_generate_updates_stats :
  forall cfg req now ts w passwords w',
    api_generate cfg req now ts w = Ok (Passwords passwords) w' ->
    answer (api_stats w') =
      inr {| total_requests := total_requests (app_stats w) + 1;
             total_passwords_generated :=
               total_passwords_generated (app_stats w)
               + Z.of_nat (length passwords);
             last_request_ts := Some ts |} /\
    1 <= Z.of_nat (length passwords) <= 100.
Proof.
  intros cfg req now ts w passwords w' Heq.
  api_cases cfg req now ts w; rewrite Hcases in Heq;
    try discriminate; injection Heq as <- <-.
  split; [reflexivity|].
  pose proof (clamp_count_nearest count). lia.
Qed.

Lemma api_generate_updates_stats_witness :
  exists passwords w',
    api_generate app_settings (request_from "10.0.0.1" [("count", "3")])
      5 6 (fresh (constant_rng 7)) = Ok (Passwords passwords) w' /\
    answer (api_stats w') =
      inr {| total_requests := 0 + 1;
             total_passwords_generated := 0 + Z.of_nat (length passwords);
             last_request_ts := Some 6%Q |} /\
    1 <= Z.of_nat (length passwords) <= 100.
Proof.
  eexists _, _. split; [vm_compute; reflexivity|].
  apply (api_generate_updates_stats app_settings
           (request_from "10.0.0.1" [("count", "3")]) 5%Q 6%Q
           (fresh (constant_rng 7))).
  vm_compute. reflexivity.
Defined.

(** X14.  Every password that [api_generate] returns has exactly the
    requested length, which lies between 8 and 128, and contains a
    character of each group that the request leaves switched on. *)
Theorem api_generate_passwords_meet_request :
  forall cfg req now ts w passwords w',
    api_generate cfg req now ts w = Ok (Passwords passwords) w' ->
    exists len,
      int_arg "length" 16 (args req) = Some len /\
      8 <= len <= 128 /\
      Forall
        (fun pw =>
           Z.of_nat (String.length pw) = len /\
           (flag "upper" (args req) = true ->
            contains_from ascii_uppercase pw = true) /\
           (flag "numbers" (args req) = true ->
            contains_from digits pw = true) /\
           (flag "special" (args req) = true ->
            contains_from punctuation pw = true))
        passwords.
Proof.
  intros cfg req now ts w passwords w' Heq.
  api_cases cfg req now ts w; rewrite Hcases in Heq;
    try discriminate; injection Heq as <- <-.
  exists len. split; [reflexivity|]. split; [lia | exact Hgood].
Qed.

Lemma api_generate_passwords_meet_request_witness :
  exists passwords w' len,
    api_generate app_settings
      (request_from "10.0.0.1" [("length", "12"); ("special", "false")])
      5 6 (fresh (constant_rng 7)) = Ok (Passwords passwords) w' /\
    int_arg "length" 16 [("length", "12"); ("special", "false")]
      = Some len /\
    8 <= len <= 128 /\
    Forall
      (fun pw =>
         Z.of_nat (String.length pw) = len /\
         (flag "upper" [("length", "12"); ("special", "false")] = true ->
          contains_from ascii_uppercase pw = true) /\
         (flag "numbers" [("length", "12"); ("special", "false")] = true ->
          contains_from digits pw = true) /\
         (flag "special" [("length", "12"); ("special", "false")] = true ->
          contains_from punctuation pw = true))
      passwords.
Proof.
  assert (exists passwords w',
            api_generate app_settings
              (request_from "10.0.0.1"
                 [("length", "12"); ("special", "false")])
              5 6 (fresh (constant_rng 7)) = Ok (Passwords passwords) w')
    as (passwords & w' & Heq)
    by (eexists _, _; vm_compute; reflexivity).
  destruct (api_generate_passwords_meet_request _ _ _ _ _ _ _ Heq)
    as (len & Hlen & Hrange & Hall).
  exists passwords, w', len. auto.
Defined.

(** X15.  The rate limiter decides first: [api_generate] answers 429 with
    a given [retry_after] exactly when the limiter rejects the client with
    it, whatever the parameters of the request. *)
Theorem api_generate_rate_limited_iff :
  forall cfg req now ts w retry_after,
    answer (api_generate cfg req now ts w)
      = inr (RateLimitExceeded retry_after) <->
    answer (check_rate_limit cfg (client_ip req) (is_trusted req) now
              (rate_buckets w)) = inr (false, retry_after).
Proof.
  intros cfg req now ts w retry_after.
  api_cases cfg req now ts w; rewrite Hcases; simpl;
    split; intros Heq; try discriminate; congruence.
Qed.

(** X16.  The defaults of the handler.  An admitted request without query
    parameters is answered with one password of 16 characters that contains
    an uppercase letter, a digit and a punctuation character. *)
Theorem api_generate_defaults :
  forall cfg req now ts w,
    args req = [] ->
    answer (check_rate_limit cfg (client_ip req) (is_trusted req) now
              (rate_buckets w)) = inr (true, None) ->
    exists pw w',
      api_generate cfg req now ts w = Ok (Passwords [pw]) w' /\
      String.length pw = 16%nat /\
      contains_from ascii_uppercase pw = true /\
      contains_from digits pw = true /\
      contains_from punctuation pw = true.
Proof.
  intros cfg req now ts w Hargs Hallowed.
  api_cases cfg req now ts w; try discriminate;
    rewrite Hargs in *; try discriminate;
    injection Hlength as <-; try discriminate.
  injection Hcount as <-.
  change (clamp_count 1) with 1 in Hserved.
  destruct passwords as [|pw [|pw' passwords]]; simpl in Hserved; try lia.
  inversion Hgood as [|? ? (Hlen & Hu & Hd & Hs) _]; subst.
  exists pw. eexists. split; [exact Hcases|].
  split; [lia|]. repeat split; auto.
Qed.

Lemma api_generate_defaults_witness :
  exists pw w',
    api_generate app_settings (request_from "10.0.0.1" []) 5 6
      (fresh (constant_rng 7)) = Ok (Passwords [pw]) w' /\
    String.length pw = 16%nat /\
    contains_from ascii_uppercase pw = true /\
    contains_from digits pw = true /\
    contains_from punctuation pw = true.
Proof.
  apply (api_generate_defaults app_settings (request_from "10.0.0.1" [])
           5%Q 6%Q (fresh (constant_rng 7))).
  - reflexivity.
  - vm_compute. reflexivity.
Defined.

End HandlerExtras.
